(** * Column and row permutation of delimited files: a model of [main.py]

    The program reads a CSV/TSV file, shuffles either its columns or its
    rows, and writes the result.  Everything it does to the outside (opening
    files, reading records, writing records, logging, drawing random
    numbers) is modelled by a state-and-exception monad [Run] over a
    [world]; what the outside answers during one run is an [env]. *)

From Stdlib Require Import Ascii String.
From stdpp Require Import base numbers option list list_numbers gmap strings.

Open Scope string_scope.
Open Scope nat_scope.
Open Scope list_scope.

(** ** Values, exceptions and the log *)

(** Exceptions the program meets.  All of them are subclasses of Python's
    [Exception], so every [except Exception] clause catches them. *)
Inductive exn :=
| FileNotFoundError
| StopIteration
| IndexError
| OtherError (what : string).

Inductive level := INFO | WARNING | ERROR.

(** One constructor per f-string handed to [logging]. *)
Inductive message :=
| ErrorDetectingEncoding (ex : exn)
| DetectedEncoding (enc : string)
| FailedToDetectEncoding
| InputFileNotFound (path : string)
| ErrorOpeningInputFile (ex : exn)
| InvalidColumnIndex (col : string)
| ColumnNameNotFound (col : string)
| SkippingRow (len num_columns : nat)
| ColumnsPermuted (input_file output_file : string)
| ErrorPermutingColumns (ex : exn)
| RowsPermuted (input_file output_file : string)
| ErrorPermutingRows (ex : exn).

(** A slot of a list built by [[None] * num_columns]: Python's [None] or a
    string.  [csv.writer] writes [None] as the empty field. *)
Definition cell := option string.

Definition csv_field (c : cell) : string := default "" c.

(** What [csv.reader] hands over on one [next]: a record, or an exception
    (a decoding error, a malformed quoted field, a failing read). *)
Inductive read_event :=
| Rec (row : list string)
| Fault (ex : exn).

(** ** The outside of one run *)

Record env := Env {
  (** result of feeding the input's bytes to chardet inside
      [detect_encoding]: an exception, or [detector.result['encoding']] *)
  chardet : exn + option string;
  (** [open(input_file, 'r')] inside [validate_input] *)
  probe_open : option exn;
  (** [open(input_file, 'r')] inside [permute_columns] / [permute_rows] *)
  input_open : option exn;
  (** [open(output_file, 'w')] *)
  output_open : option exn;
  (** what the csv reader yields, in order, once the files are open *)
  records : list read_event;
  (** whether writing one more record fails when the output already holds
      [k] records *)
  write_fault : nat → option exn
}.

Record world := World {
  (** records of the output file; [None] when the file does not exist *)
  out_file : option (list (list string));
  (** the numbers the random generator will deliver *)
  draws : list nat;
  (** everything logged so far, oldest first *)
  log : list (level * message)
}.

Definition set_out_file (f : option (list (list string))) (w : world) : world :=
  World f (draws w) (log w).
Definition set_draws (ds : list nat) (w : world) : world :=
  World (out_file w) ds (log w).
Definition add_log (entry : level * message) (w : world) : world :=
  World (out_file w) (draws w) (log w ++ [entry]).

(** ** The monad of effects *)

Definition Run (A : Type) : Type := world → (exn + A) * world.

Definition ret {A} (a : A) : Run A := λ w, (inr a, w).

Definition raise {A} (ex : exn) : Run A := λ w, (inl ex, w).

Definition bind {A B} (m : Run A) (k : A → Run B) : Run B := λ w,
  match m w with
  | (inr a, w') => k a w'
  | (inl ex, w') => (inl ex, w')
  end.

(** [try: body  except Exception as ex: handler ex] *)
Definition try_except {A} (body : Run A) (handler : exn → Run A) : Run A := λ w,
  match body w with
  | (inl ex, w') => handler ex w'
  | (inr a, w') => (inr a, w')
  end.

Notation "'do' x <- m ; k" := (bind m (λ x, k))
  (at level 10, x name, m at level 100, k at level 200,
   format "'[v' 'do'  x  <-  m ; '/' k ']'").
Notation "'do' ' p <- m ; k" := (bind m (λ x, match x with p => k end))
  (at level 10, p pattern, m at level 100, k at level 200,
   format "'[v' 'do'  ' p  <-  m ; '/' k ']'").
Notation "m >> k" := (bind m (λ _, k))
  (at level 100, k at level 200, right associativity).

(** [l[i]]; [None] stands for IndexError. *)
Definition item {A} (l : list A) (i : nat) : option A := l !! i.

(** [l[i] = v]; [None] stands for IndexError. *)
Definition assign {A} (l : list A) (i : nat) (v : A) : option (list A) :=
  if decide (i < length l) then Some (<[i:=v]> l) else None.

Definition lift {A} (o : option A) : Run A :=
  match o with
  | Some a => ret a
  | None => raise IndexError
  end.

Definition logging (lvl : level) (msg : message) : Run unit := λ w,
  (inr tt, add_log (lvl, msg) w).

(** A [for] loop that carries local variables [b] through its body. *)
Fixpoint for_fold {A B} (body : B → A → Run B) (l : list A) (b : B) : Run B :=
  match l with
  | [] => ret b
  | a :: l' => do b' <- body b a; for_fold body l' b'
  end.

(** The same loop without effects, where only IndexError can happen. *)
Fixpoint fold_items {A B} (body : B → A → option B) (l : list A) (b : B) : option B :=
  match l with
  | [] => Some b
  | a :: l' => b' ← body b a; fold_items body l' b'
  end.

(** ** Files *)

Definition open_input (e : env) : Run unit :=
  match input_open e with
  | Some ex => raise ex
  | None => ret tt
  end.

(** Opening for writing creates the file or truncates it. *)
Definition open_output (e : env) : Run unit := λ w,
  match output_open e with
  | Some ex => (inl ex, w)
  | None => (inr tt, set_out_file (Some []) w)
  end.

(** [next(reader)] *)
Definition next (reader : list read_event) : Run (list string * list read_event) :=
  match reader with
  | [] => raise StopIteration
  | Rec row :: rest => ret (row, rest)
  | Fault ex :: _ => raise ex
  end.

(** [for row in reader: body row] *)
Fixpoint for_each_record (reader : list read_event) (body : list string → Run unit) : Run unit :=
  match reader with
  | [] => ret tt
  | Rec row :: rest => body row >> for_each_record rest body
  | Fault ex :: _ => raise ex
  end.

(** [list(reader)] *)
Fixpoint read_all (reader : list read_event) : Run (list (list string)) :=
  match reader with
  | [] => ret []
  | Rec row :: rest => do rows <- read_all rest; ret (row :: rows)
  | Fault ex :: _ => raise ex
  end.

(** [writer.writerow(row)] *)
Definition writerow (e : env) (row : list string) : Run unit := λ w,
  match out_file w with
  | None => (inl (OtherError "I/O operation on closed file"), w)
  | Some written =>
      match write_fault e (length written) with
      | Some ex => (inl ex, w)
      | None => (inr tt, set_out_file (Some (written ++ [row])) w)
      end
  end.

(** [writer.writerows(rows)] *)
Fixpoint writerows (e : env) (rows : list (list string)) : Run unit :=
  match rows with
  | [] => ret tt
  | row :: rows' => writerow e row >> writerows e rows'
  end.

(** ** [random.shuffle] *)

(** [randbelow(n)]: the next draw, reduced to [[0, n)]; an exhausted
    generator keeps answering 0. *)
Definition randbelow (n : nat) (ds : list nat) : nat * list nat :=
  match ds with
  | [] => (0, [])
  | d :: ds' => (d `mod` n, ds')
  end.

(** [x[i], x[j] = x[j], x[i]] *)
Definition swap {A} (x : list A) (i j : nat) : list A :=
  match x !! i, x !! j with
  | Some xi, Some xj => <[j:=xi]> (<[i:=xj]> x)
  | _, _ => x
  end.

(** [for i in reversed(range(1, len(x))): j = randbelow(i + 1); swap],
    started at [i]. *)
Fixpoint shuffle_from {A} (i : nat) (x : list A) (ds : list nat) : list A * list nat :=
  match i with
  | 0 => (x, ds)
  | S i' =>
      let '(j, ds') := randbelow (S i) ds in
      shuffle_from i' (swap x i j) ds'
  end.

Definition shuffle {A} (x : list A) (ds : list nat) : list A * list nat :=
  shuffle_from (length x - 1) x ds.

Definition random_shuffle {A} (x : list A) : Run (list A) := λ w,
  let '(x', ds) := shuffle x (draws w) in (inr x', set_draws ds w).

(** ** Command-line arguments *)

Record Args := {
  input_file : string;
  output_file : string;
  delimiter : string;
  quotechar : string;
  exclude_columns : string;
  permute_rows_flag : bool;
  encoding : option string
}.

(** Truth value of a string-or-None and of a list-or-None. *)
Definition truthy_str (s : option string) : bool :=
  match s with
  | Some (String _ _) => true
  | _ => false
  end.

Definition truthy_list {A} (l : option (list A)) : bool :=
  match l with
  | Some (_ :: _) => true
  | _ => false
  end.

(** [s.split(',')] *)
Fixpoint split_commas (s : string) : list string :=
  match s with
  | EmptyString => [EmptyString]
  | String c s' =>
      if decide (c = ","%char) then EmptyString :: split_commas s'
      else match split_commas s' with
           | [] => [String c EmptyString]
           | tok :: toks => String c tok :: toks
           end
  end.

(** White space of [str.strip()], among the ASCII characters. *)
Definition is_space (c : ascii) : bool :=
  let n := nat_of_ascii c in
  (9 <=? n) && (n <=? 13) || (28 <=? n) && (n <=? 32).

Fixpoint lstrip (s : string) : string :=
  match s with
  | EmptyString => EmptyString
  | String c s' => if is_space c then lstrip s' else s
  end.

Fixpoint rstrip (s : string) : string :=
  match s with
  | EmptyString => EmptyString
  | String c s' =>
      match rstrip s' with
      | EmptyString => if is_space c then EmptyString else String c EmptyString
      | t => String c t
      end
  end.

Definition strip (s : string) : string := rstrip (lstrip s).

(** [[col.strip() for col in s.split(',') if col.strip()] if s else None] *)
Definition parse_exclude_columns (s : string) : option (list string) :=
  if truthy_str (Some s)
  then Some (strip <$> filter (λ col, truthy_str (Some (strip col)) = true) (split_commas s))
  else None.

(** ** The column resolver, the permutation engine and [main] *)

Section Program.

(** Python's builtin [int] on a string; [None] stands for ValueError. *)
Variable int : string → option Z.

(** [header.index(col)]; [None] stands for ValueError. *)
Definition index (header : list string) (col : string) : option nat :=
  fst <$> list_find (λ name, name = col) header.

(** Body of [for col in exclude_columns]. *)
Definition exclude_token (header : list string)
    (exclude_indices : gset nat) (col : string) : Run (gset nat) :=
  let num_columns := length header in
  match int col with
  | Some idx =>
      if decide (0 ≤ idx < Z.of_nat num_columns)%Z
      then ret (exclude_indices ∪ {[Z.to_nat idx]})
      else logging WARNING (InvalidColumnIndex col) >> ret exclude_indices
  | None =>
      match index header col with
      | Some idx => ret (exclude_indices ∪ {[idx]})
      | None => logging WARNING (ColumnNameNotFound col) >> ret exclude_indices
      end
  end.

Definition resolve (header : list string) (tokens : list string) : Run (gset nat) :=
  for_fold (exclude_token header) tokens ∅.

(** Body of [for i in range(num_columns)] that rebuilds a record:
    excluded positions take the value of [source], the others consume
    [values] in order. *)
Definition place (exclude_indices : gset nat) (source values : list string)
    (st : list cell * nat) (i : nat) : option (list cell * nat) :=
  let '(permuted, permute_index) := st in
  if decide (i ∈ exclude_indices) then
    v ← item source i;
    permuted' ← assign permuted i (Some v);
    Some (permuted', permute_index)
  else
    v ← item values permute_index;
    permuted' ← assign permuted i (Some v);
    Some (permuted', S permute_index).

Definition rebuild (exclude_indices : gset nat) (source values : list string)
    (num_columns : nat) : option (list cell) :=
  fst <$> fold_items (place exclude_indices source values)
            (seq 0 num_columns) (replicate num_columns None, 0).

(** [[l[i] for i in indices]] *)
Definition items {A} (l : list A) (indices : list nat) : option (list A) :=
  mapM (item l) indices.

(** Lines 95-138: the index plan, the set of excluded positions and the
    new header. *)
Definition plan_header (header : list string) (exclude : option (list string))
    : Run (list nat * gset nat * list string) :=
  let num_columns := length header in
  if truthy_list exclude then
    do exclude_indices <- resolve header (default [] exclude);
    let permute_indices := filter (λ i, i ∉ exclude_indices) (seq 0 num_columns) in
    do permuted_columns <- lift (items header permute_indices);
    do permuted_columns <- random_shuffle permuted_columns;
    do permuted_header <- lift (rebuild exclude_indices header permuted_columns num_columns);
    ret (permute_indices, exclude_indices, csv_field <$> permuted_header)
  else
    do permute_indices <- random_shuffle (seq 0 num_columns);
    do permuted_header <- lift (items header permute_indices);
    ret (permute_indices, ∅, permuted_header).

(** Lines 148-164: the record written for one row of the right width. *)
Definition permute_row (exclude : option (list string)) (num_columns : nat)
    (permute_indices : list nat) (exclude_indices : gset nat)
    (row : list string) : Run (list string) :=
  if truthy_list exclude then
    do row_values <- lift (items row permute_indices);
    do permuted_row <- lift (rebuild exclude_indices row row_values num_columns);
    ret (csv_field <$> permuted_row)
  else
    lift (items row permute_indices).

(** Body of [for row in reader] in [permute_columns]. *)
Definition column_step (e : env) (exclude : option (list string)) (num_columns : nat)
    (permute_indices : list nat) (exclude_indices : gset nat)
    (row : list string) : Run unit :=
  if decide (length row ≠ num_columns) then
    logging WARNING (SkippingRow (length row) num_columns)
  else
    do permuted_row <- permute_row exclude num_columns permute_indices exclude_indices row;
    writerow e permuted_row.

(** The [try] block of [permute_columns]. *)
Definition permute_columns_try (e : env) (input output : string)
    (exclude : option (list string)) : Run unit :=
  open_input e >>
  open_output e >>
  do '(header, reader) <- next (records e);
  let num_columns := length header in
  do '(permute_indices, exclude_indices, permuted_header) <- plan_header header exclude;
  writerow e permuted_header >>
  for_each_record reader
    (column_step e exclude num_columns permute_indices exclude_indices) >>
  logging INFO (ColumnsPermuted input output).

Definition permute_columns (e : env) (input output : string)
    (exclude : option (list string)) : Run unit :=
  try_except (permute_columns_try e input output exclude)
    (λ ex, logging ERROR (ErrorPermutingColumns ex)).

(** The [try] block of [permute_rows]. *)
Definition permute_rows_try (e : env) (input output : string) : Run unit :=
  open_input e >>
  open_output e >>
  do '(header, reader) <- next (records e);
  writerow e header >>
  do rows <- read_all reader;
  do rows <- random_shuffle rows;
  writerows e rows >>
  logging INFO (RowsPermuted input output).

Definition permute_rows (e : env) (input output : string) : Run unit :=
  try_except (permute_rows_try e input output)
    (λ ex, logging ERROR (ErrorPermutingRows ex)).

Definition detect_encoding (e : env) : Run (option string) :=
  try_except
    (match chardet e with
     | inl ex => raise ex
     | inr enc => ret enc
     end)
    (λ ex, logging ERROR (ErrorDetectingEncoding ex) >> ret None).

Definition validate_input (e : env) (path : string) : Run bool :=
  try_except
    (match probe_open e with
     | Some ex => raise ex
     | None => ret true
     end)
    (λ ex,
       match ex with
       | FileNotFoundError => logging ERROR (InputFileNotFound path) >> ret false
       | _ => logging ERROR (ErrorOpeningInputFile ex) >> ret false
       end).

(** [main]; the value is the exit status of the process: 1 for
    [sys.exit(1)], 0 when [main] returns.  The encoding settled here only
    changes how the files open and decode, which is what [e] answers. *)
Definition main (e : env) (args : Args) : Run nat :=
  do enc <-
    (if truthy_str (encoding args) then ret (encoding args)
     else
       do detected <- detect_encoding e;
       if truthy_str detected
       then logging INFO (DetectedEncoding (default "" detected)) >> ret detected
       else logging WARNING FailedToDetectEncoding >> ret (Some "utf-8"));
  do valid <- validate_input e (input_file args);
  if negb valid then ret 1
  else
    let exclude := parse_exclude_columns (exclude_columns args) in
    (if permute_rows_flag args
     then permute_rows e (input_file args) (output_file args)
     else permute_columns e (input_file args) (output_file args) exclude) >>
    ret 0.

End Program.

(** ** A decimal reading of [int], for the examples *)

Definition digit (c : ascii) : option Z :=
  let n := nat_of_ascii c in
  if (48 <=? n) && (n <=? 57) then Some (Z.of_nat (n - 48)) else None.

Fixpoint digits (acc : Z) (s : string) : option Z :=
  match s with
  | EmptyString => Some acc
  | String c s' => d ← digit c; digits (10 * acc + d) s'
  end.

(** An optional sign followed by at least one decimal digit. *)
Definition int_decimal (s : string) : option Z :=
  match s with
  | EmptyString => None
  | String "-"%char (String _ _ as s') => Z.opp <$> digits 0 s'
  | String "+"%char (String _ _ as s') => digits 0 s'
  | String "-"%char EmptyString | String "+"%char EmptyString => None
  | _ => digits 0 s
  end.

(** ** Closed forms of the loops, used by the proofs *)

(** The non-excluded positions of a record of [n] fields, in order. *)
Definition free (X : gset nat) (n : nat) : list nat :=
  filter (λ i, i ∉ X) (seq 0 n).

(** [[l[i] for i in indices]] when no index is out of range. *)
Definition pick (l : list string) (indices : list nat) : list string :=
  (λ i, default "" (l !! i)) <$> indices.

(** What [rebuild] builds: [source] at the excluded positions, and the
    [values] in order at the others. *)
Definition weave (X : gset nat) (source values : list string) (n : nat) : list string :=
  (λ i, if decide (i ∈ X) then default "" (source !! i)
        else default "" (values !! length (free X i))) <$> seq 0 n.

Section Resolver_forms.
Variable int : string → option Z.

(** The spec's reading of one exclusion token: an integer inside
    [[0, num_columns)] designates that position; a token that is no
    integer designates the first position of the header holding exactly
    that name. *)
Definition designates (header : list string) (col : string) (p : nat) : Prop :=
  (∃ z, int col = Some z ∧ (0 ≤ z < Z.of_nat (length header))%Z ∧ p = Z.to_nat z)
  ∨ (int col = None ∧ header !! p = Some col ∧ ∀ j, j < p → header !! j ≠ Some col).

(** The position a token adds to [exclude_indices], if any. *)
Definition designated (header : list string) (col : string) : option nat :=
  match int col with
  | Some z => if decide (0 ≤ z < Z.of_nat (length header))%Z then Some (Z.to_nat z) else None
  | None => index header col
  end.

(** The warning logged for a token that adds nothing. *)
Definition complaint (col : string) : level * message :=
  match int col with
  | Some _ => (WARNING, InvalidColumnIndex col)
  | None => (WARNING, ColumnNameNotFound col)
  end.

Definition complaints (header : list string) (tokens : list string) : list (level * message) :=
  complaint <$> filter (λ col, designated header col = None) tokens.

(** The resolved PositionSet of a run of [permute_columns]: the value of
    [exclude_indices] after the loop over the tokens, and the empty set
    when that loop is not entered. *)
Definition PositionSet (header : list string) (exclude : option (list string)) : gset nat :=
  if truthy_list exclude then
    match (resolve int header (default [] exclude) (World None [] [])).1 with
    | inr X => X
    | inl _ => ∅
    end
  else ∅.
End Resolver_forms.

(** A run on the table [header :: rows] in which no file operation fails. *)
Definition quiet (e : env) (header : list string) (rows : list (list string)) : Prop :=
  input_open e = None ∧ output_open e = None ∧
  records e = Rec header :: (Rec <$> rows) ∧ ∀ k, write_fault e k = None.

(** The warning for a row of the wrong width. *)
Definition skipped (num_columns : nat) (row : list string) : level * message :=
  (WARNING, SkippingRow (length row) num_columns).

Definition add_logs (entries : list (level * message)) (w : world) : world :=
  World (out_file w) (draws w) (log w ++ entries).

(** The records the reader hands over before its first exception. *)
Fixpoint leading (reader : list read_event) : list (list string) :=
  match reader with
  | Rec row :: rest => row :: leading rest
  | _ => []
  end.

(** ** Concrete runs *)

(** The outside of a run on the table [header :: rows] where nothing
    fails and chardet answers utf-8. *)
Definition table_env (header : list string) (rows : list (list string)) : env :=
  Env (inr (Some "utf-8")) None None None (Rec header :: (Rec <$> rows)) (λ _, None).

(** No output file yet, an empty log, and the given random draws. *)
Definition fresh (ds : list nat) : world := World None ds [].

(** The same table, on a disk that fails once two records are written. *)
Definition full_disk_env (header : list string) (rows : list (list string)) : env :=
  Env (inr (Some "utf-8")) None None None (Rec header :: (Rec <$> rows))
    (λ k, if decide (k < 2) then None else Some (OtherError "No space left on device")).

(** A missing input file. *)
Definition missing_env : env :=
  Env (inl FileNotFoundError) (Some FileNotFoundError) (Some FileNotFoundError) None
    [] (λ _, None).

(** An input file without any record. *)
Definition empty_env : env :=
  Env (inr None) None None None [] (λ _, None).

Definition column_args (exclude : string) : Args :=
  {| input_file := "in.csv"; output_file := "out.csv"; delimiter := ",";
     quotechar := "'"; exclude_columns := exclude; permute_rows_flag := false;
     encoding := None |}.

Definition row_args : Args :=
  {| input_file := "in.csv"; output_file := "out.csv"; delimiter := ",";
     quotechar := "'"; exclude_columns := ""; permute_rows_flag := true;
     encoding := Some "utf-8" |}.

(** The table of the examples: four columns, and one row that is too
    short. *)
Definition demo_header : list string := ["a"; "b"; "c"; "d"].

Definition demo_rows : list (list string) :=
  [["1"; "2"; "3"; "4"]; ["5"; "6"]; ["7"; "8"; "9"; "10"]].



(** A table whose reading breaks after [rows]. *)
Definition torn_env (header : list string) (rows : list (list string)) : env :=
  Env (inr (Some "utf-8")) None None None
    (Rec header :: (Rec <$> rows) ++ [Fault (OtherError "invalid continuation byte")])
    (λ _, None).

(** An output path that cannot be opened for writing. *)
Definition unwritable_env (header : list string) (rows : list (list string)) : env :=
  Env (inr (Some "utf-8")) None None (Some (OtherError "Permission denied"))
    (Rec header :: (Rec <$> rows)) (λ _, None).

(** * Lemmas *)

(** ** The shuffle is a permutation, and commutes with maps *)

Section shuffle_facts.
Context {A : Type}.
Implicit Types (x : list A) (ds : list nat).

Lemma swap_perm x i j : swap x i j ≡ₚ x.
Proof.
  unfold swap. destruct (x !! i) as [xi|] eqn:Hi; [|done].
  destruct (x !! j) as [xj|] eqn:Hj; [|done].
  by apply Permutation_insert_swap.
Qed.

Lemma shuffle_from_perm i x ds : (shuffle_from i x ds).1 ≡ₚ x.
Proof.
  revert x ds. induction i as [|i IH]; intros x ds; [done|].
  simpl. destruct (randbelow (S (S i)) ds) as [j ds'].
  rewrite IH. apply swap_perm.
Qed.

Lemma shuffle_perm x ds : (shuffle x ds).1 ≡ₚ x.
Proof. apply shuffle_from_perm. Qed.

Lemma shuffle_length x ds : length (shuffle x ds).1 = length x.
Proof. by rewrite shuffle_perm. Qed.
End shuffle_facts.

Lemma swap_fmap {A B} (f : A → B) (x : list A) i j :
  swap (f <$> x) i j = f <$> swap x i j.
Proof.
  unfold swap. rewrite !list_lookup_fmap.
  destruct (x !! i) as [xi|]; [|done]. destruct (x !! j) as [xj|]; [|done].
  simpl. by rewrite !list_fmap_insert.
Qed.

Lemma shuffle_from_fmap {A B} (f : A → B) i (x : list A) ds :
  shuffle_from i (f <$> x) ds = (f <$> (shuffle_from i x ds).1, (shuffle_from i x ds).2).
Proof.
  revert x ds. induction i as [|i IH]; intros x ds; [done|].
  simpl. destruct (randbelow (S (S i)) ds) as [j ds'].
  by rewrite swap_fmap, IH.
Qed.

Lemma shuffle_fmap {A B} (f : A → B) (x : list A) ds :
  shuffle (f <$> x) ds = (f <$> (shuffle x ds).1, (shuffle x ds).2).
Proof. unfold shuffle. rewrite length_fmap. apply shuffle_from_fmap. Qed.

(** ** Reading records by index *)

Section pick_facts.
Implicit Types (l : list string) (indices : list nat).

Lemma items_pick l indices :
  Forall (λ i, i < length l) indices → items l indices = Some (pick l indices).
Proof.
  intros Hin. apply mapM_Some. unfold pick.
  induction Hin as [|i indices Hi _ IH]; simpl; constructor; [|done].
  unfold item. destruct (lookup_lt_is_Some_2 l i Hi) as [v ->]. done.
Qed.

Lemma pick_all l : pick l (seq 0 (length l)) = l.
Proof.
  apply list_eq; intros i. unfold pick. rewrite list_lookup_fmap.
  destruct (decide (i < length l)) as [Hi|Hi].
  - rewrite lookup_seq_lt by done. simpl.
    destruct (lookup_lt_is_Some_2 l i Hi) as [v ->]. done.
  - rewrite lookup_seq_ge by lia. simpl. symmetry. apply lookup_ge_None. lia.
Qed.

Lemma pick_perm l indices indices' :
  indices ≡ₚ indices' → pick l indices ≡ₚ pick l indices'.
Proof. intros H. unfold pick. by rewrite H. Qed.

Lemma pick_length l indices : length (pick l indices) = length indices.
Proof. unfold pick. by rewrite length_fmap. Qed.

Lemma pick_lookup l indices k i :
  indices !! k = Some i → i < length l → pick l indices !! k = l !! i.
Proof.
  intros Hk Hi. unfold pick. rewrite list_lookup_fmap, Hk. simpl.
  destruct (lookup_lt_is_Some_2 l i Hi) as [v ->]. done.
Qed.
End pick_facts.

Section free_facts.
Variable X : gset nat.

Lemma free_S i : free X (S i) = free X i ++ (if decide (i ∈ X) then [] else [i]).
Proof.
  unfold free. rewrite seq_S, filter_app. simpl. f_equal.
  rewrite filter_cons, filter_nil. destruct (decide (i ∈ X)), (decide (i ∉ X)); done || tauto.
Qed.

Lemma free_bound n : Forall (λ i, i < n) (free X n).
Proof.
  apply Forall_forall. intros i [_ Hi%elem_of_seq]%list_elem_of_filter. lia.
Qed.

Lemma free_length_mono i n : i ≤ n → length (free X i) ≤ length (free X n).
Proof.
  induction 1 as [|n _ IH]; [done|]. rewrite free_S, length_app. lia.
Qed.

Lemma free_lookup_rank i n :
  i < n → i ∉ X → free X n !! length (free X i) = Some i.
Proof.
  intros Hi HS. induction n as [|n IH]; [lia|].
  rewrite free_S. destruct (decide (i = n)) as [->|Hne].
  - rewrite decide_False by done. by rewrite list_lookup_middle.
  - rewrite lookup_app_l; [apply IH; lia|].
    apply lookup_lt_Some with i. apply IH. lia.
Qed.

Lemma free_NoDup n : NoDup (free X n).
Proof. apply NoDup_filter, NoDup_seq. Qed.

Lemma free_lookup_inv n k i :
  free X n !! k = Some i → i < n ∧ (i ∉ X) ∧ length (free X i) = k.
Proof.
  intros Hk.
  assert (i ∈ free X n) as [HS Hi%elem_of_seq]%list_elem_of_filter
    by (by eapply list_elem_of_lookup_2).
  split_and!; [lia|done|].
  eapply NoDup_lookup; [apply (free_NoDup n)| |done].
  apply free_lookup_rank; [lia|done].
Qed.
End free_facts.

(** ** Rebuilding a record around the excluded positions *)

Section weave_facts.
Variable X : gset nat.
Implicit Types (source values : list string).

Lemma weave_S source values n :
  weave X source values (S n) =
  weave X source values n ++
    [if decide (n ∈ X) then default "" (source !! n)
     else default "" (values !! length (free X n))].
Proof. unfold weave. by rewrite seq_S, fmap_app. Qed.

Lemma weave_length source values n : length (weave X source values n) = n.
Proof. unfold weave. by rewrite length_fmap, length_seq. Qed.

Lemma weave_lookup source values n i :
  i < n →
  weave X source values n !! i =
  Some (if decide (i ∈ X) then default "" (source !! i)
        else default "" (values !! length (free X i))).
Proof. intros Hi. unfold weave. by rewrite list_lookup_fmap, lookup_seq_lt. Qed.

Lemma assign_frontier (done : list string) m v :
  assign ((Some <$> done) ++ replicate (S m) None) (length done) (Some v)
  = Some ((Some <$> done ++ [v]) ++ replicate m None).
Proof.
  unfold assign. rewrite decide_True
    by (rewrite length_app, length_fmap, length_replicate; lia).
  rewrite insert_app_r_alt by (rewrite length_fmap; lia).
  rewrite length_fmap, Nat.sub_diag. simpl.
  by rewrite fmap_app, <-app_assoc.
Qed.

Lemma place_excluded source values (done : list string) m k i v :
  i = length done → i ∈ X → source !! i = Some v →
  place X source values ((Some <$> done) ++ replicate (S m) None, k) i
  = Some ((Some <$> done ++ [v]) ++ replicate m None, k).
Proof.
  intros -> Hi Hv. unfold place, item.
  rewrite decide_True, Hv by done. cbn [mbind option_bind].
  by rewrite assign_frontier.
Qed.

Lemma place_free source values (done : list string) m k i v :
  i = length done → i ∉ X → values !! k = Some v →
  place X source values ((Some <$> done) ++ replicate (S m) None, k) i
  = Some ((Some <$> done ++ [v]) ++ replicate m None, S k).
Proof.
  intros -> Hi Hv. unfold place, item.
  rewrite decide_False, Hv by done. cbn [mbind option_bind].
  by rewrite assign_frontier.
Qed.

Lemma fold_place source values n m s :
  s + m = n → n ≤ length source → length (free X n) ≤ length values →
  fold_items (place X source values) (seq s m)
    ((Some <$> weave X source values s) ++ replicate m None, length (free X s))
  = Some (Some <$> weave X source values n, length (free X n)).
Proof.
  revert s. induction m as [|m IH]; intros s Hn Hsrc Hval.
  { simpl. rewrite app_nil_r. by replace s with n by lia. }
  change (seq s (S m)) with (s :: seq (S s) m).
  cbn [fold_items].
  specialize (IH (S s)). rewrite weave_S, free_S in IH.
  destruct (decide (s ∈ X)) as [Hs|Hs].
  - destruct (lookup_lt_is_Some_2 source s) as [v Hv]; [lia|].
    rewrite (place_excluded _ _ _ _ _ _ v) by (by rewrite ?weave_length).
    rewrite Hv, app_nil_r in IH. simpl. apply IH; [lia|done|done].
  - destruct (lookup_lt_is_Some_2 values (length (free X s))) as [v Hv].
    { eapply Nat.lt_le_trans; [|apply Hval].
      eapply lookup_lt_Some. apply (free_lookup_rank X s n); [lia|done]. }
    rewrite (place_free _ _ _ _ _ _ v) by (by rewrite ?weave_length).
    rewrite Hv, length_app in IH. simpl in IH.
    rewrite Nat.add_1_r in IH. simpl. apply IH; [lia|done|done].
Qed.

Lemma rebuild_weave source values n :
  n ≤ length source → length (free X n) ≤ length values →
  rebuild X source values n = Some (Some <$> weave X source values n).
Proof.
  intros Hsrc Hval. unfold rebuild.
  pose proof (fold_place source values n n 0 eq_refl Hsrc Hval) as H.
  simpl in H. by rewrite H.
Qed.

Lemma csv_field_Some (l : list string) : csv_field <$> (Some <$> l) = l.
Proof. rewrite <-list_fmap_compose. apply list_fmap_id. Qed.

(** Rebuilding a record from its own values gives the record back. *)
Lemma weave_self row :
  weave X row (pick row (free X (length row))) (length row) = row.
Proof.
  apply list_eq_same_length with (length row); [done|by rewrite weave_length|].
  intros i v v' Hi. rewrite weave_lookup by done.
  intros [= <-] Hv'. destruct (decide (i ∈ X)); [by rewrite Hv'|].
  rewrite (pick_lookup _ _ _ i), Hv'; [done| |done].
  by apply free_lookup_rank.
Qed.

Lemma weave_excluded source values n p :
  p ∈ X → n = length source → weave X source values n !! p = source !! p.
Proof.
  intros Hp ->. destruct (decide (p < length source)) as [Hlt|Hge].
  - rewrite weave_lookup, decide_True by done.
    destruct (lookup_lt_is_Some_2 source p Hlt) as [v ->]. done.
  - rewrite !(proj2 (lookup_ge_None _ _)); [done|lia|rewrite weave_length; lia].
Qed.

(** The values found at the free positions are the values woven in. *)
Lemma pick_weave_free source values n :
  length values = length (free X n) →
  pick (weave X source values n) (free X n) = values.
Proof.
  intros Hlen. apply list_eq_same_length with (length values);
    [done|by rewrite pick_length|].
  intros k v v' Hk Hv Hv'.
  destruct (lookup_lt_is_Some_2 (free X n) k) as [i Hi]; [lia|].
  destruct (free_lookup_inv X n k i Hi) as (Hin & HiS & Hrank).
  rewrite (pick_lookup _ _ _ i), weave_lookup, decide_False, Hrank, Hv' in Hv;
    [|done|done|done|by rewrite weave_length].
  by injection Hv.
Qed.
End weave_facts.

(** ** The monad and the resolver *)

Section monad_facts.
Context {A B : Type}.

Lemma bind_ok (m : Run A) (k : A → Run B) w a w' :
  m w = (inr a, w') → bind m k w = k a w'.
Proof. unfold bind. by intros ->. Qed.

Lemma bind_fail (m : Run A) (k : A → Run B) w ex w' :
  m w = (inl ex, w') → bind m k w = (inl ex, w').
Proof. unfold bind. by intros ->. Qed.

Lemma try_ok (body : Run A) handler w a w' :
  body w = (inr a, w') → try_except body handler w = (inr a, w').
Proof. unfold try_except. by intros ->. Qed.

Lemma try_caught (body : Run A) handler w ex w' :
  body w = (inl ex, w') → try_except body handler w = handler ex w'.
Proof. unfold try_except. by intros ->. Qed.

Lemma lift_Some (o : option A) a w : o = Some a → lift o w = (inr a, w).
Proof. by intros ->. Qed.
End monad_facts.

Lemma add_logs_nil w : add_logs [] w = w.
Proof. destruct w. unfold add_logs. simpl. by rewrite app_nil_r. Qed.

Lemma add_logs_app l1 l2 w : add_logs l2 (add_logs l1 w) = add_logs (l1 ++ l2) w.
Proof. unfold add_logs. simpl. by rewrite app_assoc. Qed.

Lemma add_log_logs entry w : add_log entry w = add_logs [entry] w.
Proof. done. Qed.

Section resolver_facts.
Variable int : string → option Z.
Implicit Types (header tokens : list string) (X : gset nat).

Lemma index_Some header col p :
  index header col = Some p ↔
  header !! p = Some col ∧ ∀ j, j < p → header !! j ≠ Some col.
Proof.
  unfold index. split.
  - destruct (list_find _ header) as [[i name]|] eqn:Hf; [|done].
    intros [= <-]. apply list_find_Some in Hf as (Hi & -> & Hfirst).
    split; [done|]. intros j Hj Hjc. by apply (Hfirst j col).
  - intros [Hp Hfirst].
    assert (list_find (λ name, name = col) header = Some (p, col)) as ->; [|done].
    apply list_find_Some. split_and!; [done..|].
    intros j name Hj Hlt ->. by apply (Hfirst j).
Qed.

Lemma index_None header col : index header col = None ↔ col ∉ header.
Proof.
  unfold index. destruct (list_find _ header) as [[i name]|] eqn:Hf.
  - apply list_find_Some in Hf as (Hi & -> & _).
    split; [done|]. intros []. by eapply list_elem_of_lookup_2.
  - split; [|done]. intros _ Hin.
    eapply list_find_None, Forall_forall in Hf; [|done]. done.
Qed.

Lemma designated_Some header col p :
  designated int header col = Some p ↔ designates int header col p.
Proof.
  unfold designated, designates. destruct (int col) as [z|]; [case_decide|].
  - split; [intros [= <-]; left; eauto|].
    intros [(z' & [= <-] & _ & ->)|[[=] _]]. done.
  - split; [done|]. intros [(z' & [= <-] & ? & _)|[[=] _]]. done.
  - rewrite index_Some. split; [by right|]. by intros [(? & [=] & _)|[_ ?]].
Qed.

Lemma designated_None header col :
  designated int header col = None ↔ ∀ p, ¬ designates int header col p.
Proof.
  split.
  - intros HN p Hp%designated_Some. congruence.
  - intros Hno. destruct (designated int header col) as [p|] eqn:Hd; [|done].
    by apply designated_Some, Hno in Hd.
Qed.

Lemma designated_bound header col p :
  designated int header col = Some p → p < length header.
Proof.
  intros [(z & _ & ? & ->)|(_ & Hp & _)]%designated_Some; [lia|].
  by eapply lookup_lt_Some.
Qed.

Lemma exclude_token_run header X col w :
  exclude_token int header X col w =
  match designated int header col with
  | Some p => (inr (X ∪ {[p]}), w)
  | None => (inr X, add_log (complaint int col) w)
  end.
Proof.
  unfold exclude_token, designated, complaint.
  destruct (int col) as [z|]; [by case_decide|].
  by destruct (index header col).
Qed.

Lemma for_fold_exclude header tokens X w :
  for_fold (exclude_token int header) tokens X w =
  (inr (X ∪ list_to_set (omap (designated int header) tokens)),
   add_logs (complaints int header tokens) w).
Proof.
  revert X w. induction tokens as [|col tokens IH]; intros X w.
  { simpl. unfold ret, complaints. by rewrite add_logs_nil, union_empty_r_L. }
  cbn [for_fold]. unfold bind, complaints.
  rewrite exclude_token_run, filter_cons. cbn [omap list_omap].
  destruct (designated int header col) as [p|] eqn:Hd.
  - rewrite decide_False by done. rewrite IH.
    by rewrite list_to_set_cons, (assoc_L (∪)).
  - rewrite decide_True by done. rewrite IH.
    by rewrite fmap_cons, add_log_logs, add_logs_app.
Qed.

Lemma resolve_run header tokens w :
  resolve int header tokens w =
  (inr (list_to_set (omap (designated int header) tokens)),
   add_logs (complaints int header tokens) w).
Proof. unfold resolve. by rewrite for_fold_exclude, union_empty_l_L. Qed.

Lemma PositionSet_truthy header exclude :
  truthy_list exclude = true →
  PositionSet int header exclude =
  list_to_set (omap (designated int header) (default [] exclude)).
Proof. intros Ht. unfold PositionSet. by rewrite Ht, resolve_run. Qed.

Lemma PositionSet_falsy header exclude :
  truthy_list exclude = false → PositionSet int header exclude = ∅.
Proof. intros Ht. unfold PositionSet. by rewrite Ht. Qed.

Lemma resolve_PositionSet header exclude w :
  truthy_list exclude = true →
  resolve int header (default [] exclude) w =
  (inr (PositionSet int header exclude),
   add_logs (complaints int header (default [] exclude)) w).
Proof. intros Ht. by rewrite PositionSet_truthy, resolve_run. Qed.

Lemma elem_of_resolved header tokens p :
  p ∈ (list_to_set (omap (designated int header) tokens) : gset nat) ↔
  ∃ col, col ∈ tokens ∧ designates int header col p.
Proof.
  rewrite elem_of_list_to_set, list_elem_of_omap.
  by setoid_rewrite designated_Some.
Qed.
End resolver_facts.

(** ** Runs of the column engine *)

Section engine_facts.
Variable int : string → option Z.
Implicit Types (header row : list string) (rows : list (list string))
  (exclude : option (list string)) (X : gset nat) (w : world).

Lemma plan_header_excluding header exclude w :
  truthy_list exclude = true →
  let X := PositionSet int header exclude in
  let n := length header in
  let sh := shuffle (pick header (free X n)) (draws w) in
  plan_header int header exclude w =
  (inr (free X n, X, weave X header sh.1 n),
   World (out_file w) sh.2 (log w ++ complaints int header (default [] exclude))).
Proof.
  intros Ht X n sh. unfold plan_header. rewrite Ht.
  rewrite (bind_ok _ _ _ _ _ (resolve_PositionSet int header exclude w Ht)).
  fold X n.
  rewrite (bind_ok _ _ _ (pick header (free X n)) (add_logs (complaints int header (default [] exclude)) w)).
  2:{ apply lift_Some, items_pick, free_bound. }
  rewrite (bind_ok _ _ _ sh.1
    (World (out_file w) sh.2 (log w ++ complaints int header (default [] exclude)))).
  2:{ unfold random_shuffle. simpl. fold sh. by destruct sh. }
  erewrite bind_ok; [|apply lift_Some, rebuild_weave].
  - by rewrite csv_field_Some.
  - done.
  - unfold sh. by rewrite shuffle_length, pick_length.
Qed.

Lemma shuffle_seq_bound n ds : Forall (λ i, i < n) (shuffle (seq 0 n) ds).1.
Proof.
  rewrite shuffle_perm. apply Forall_forall. intros i Hi%elem_of_seq. lia.
Qed.

Lemma plan_header_plain header exclude w :
  truthy_list exclude = false →
  let sh := shuffle (seq 0 (length header)) (draws w) in
  plan_header int header exclude w =
  (inr (sh.1, ∅, pick header sh.1), World (out_file w) sh.2 (log w)).
Proof.
  intros Ht sh. unfold plan_header. rewrite Ht.
  rewrite (bind_ok _ _ _ sh.1 (World (out_file w) sh.2 (log w))).
  2:{ unfold random_shuffle. fold sh. by destruct sh. }
  erewrite bind_ok; [done|]. apply lift_Some, items_pick, shuffle_seq_bound.
Qed.

Lemma permute_row_excluding exclude X row w :
  truthy_list exclude = true →
  permute_row exclude (length row) (free X (length row)) X row w = (inr row, w).
Proof.
  intros Ht. unfold permute_row. rewrite Ht.
  erewrite bind_ok; [|apply lift_Some, items_pick, free_bound].
  erewrite bind_ok; [|apply lift_Some, rebuild_weave].
  - by rewrite csv_field_Some, weave_self.
  - done.
  - by rewrite pick_length.
Qed.

Lemma permute_row_plain exclude X n indices row w :
  truthy_list exclude = false → length row = n → Forall (λ i, i < n) indices →
  permute_row exclude n indices X row w = (inr (pick row indices), w).
Proof.
  intros Ht <- Hin. unfold permute_row. rewrite Ht. by apply lift_Some, items_pick.
Qed.

Lemma column_loop e exclude n indices X (f : list string → list string)
    rows written ds lg :
  (∀ k, write_fault e k = None) →
  (∀ row w, length row = n →
     permute_row exclude n indices X row w = (inr (f row), w)) →
  for_each_record (Rec <$> rows) (column_step e exclude n indices X)
    (World (Some written) ds lg) =
  (inr tt,
   World (Some (written ++ (f <$> filter (λ r, length r = n) rows))) ds
         (lg ++ (skipped n <$> filter (λ r, length r ≠ n) rows))).
Proof.
  intros Hw Hf. revert written lg.
  induction rows as [|row rows IH]; intros written lg.
  { simpl. unfold ret. by rewrite !app_nil_r. }
  rewrite fmap_cons. cbn [for_each_record]. rewrite !filter_cons.
  unfold column_step at 1. destruct (decide (length row = n)) as [Hlen|Hlen].
  - rewrite decide_False, (decide_False (P := length row ≠ n)) by tauto.
    erewrite bind_ok.
    2:{ erewrite bind_ok; [|by apply Hf]. unfold writerow. simpl.
        by rewrite Hw. }
    unfold set_out_file. simpl. by rewrite IH, <-app_assoc.
  - rewrite decide_True, (decide_True (P := length row ≠ n)) by done.
    erewrite bind_ok; [|done].
    unfold add_log. simpl. by rewrite IH, <-app_assoc.
Qed.

Lemma permute_columns_try_excluding e input output exclude header rows w :
  quiet e header rows → truthy_list exclude = true →
  let X := PositionSet int header exclude in
  let n := length header in
  let sh := shuffle (pick header (free X n)) (draws w) in
  permute_columns_try int e input output exclude w =
  (inr tt,
   World (Some (weave X header sh.1 n :: filter (λ r, length r = n) rows)) sh.2
     (log w ++ complaints int header (default [] exclude)
            ++ (skipped n <$> filter (λ r, length r ≠ n) rows)
            ++ [(INFO, ColumnsPermuted input output)])).
Proof.
  intros (Hin & Hout & Hrec & Hw) Ht X n sh. unfold permute_columns_try.
  unfold open_input, open_output. rewrite Hin, Hout, Hrec.
  unfold bind at 1. unfold ret at 1. unfold bind at 1.
  unfold bind at 1. unfold next at 1. unfold ret at 1.
  pose proof (plan_header_excluding header exclude (set_out_file (Some []) w) Ht)
    as Hplan. cbv zeta in Hplan. unfold bind at 1. rewrite Hplan. clear Hplan.
  erewrite bind_ok; [|unfold writerow; simpl; by rewrite Hw].
  erewrite bind_ok.
  2:{ apply (column_loop _ _ _ _ _ id); [done|].
      intros row w' <-. by apply permute_row_excluding. }
  unfold logging, add_log. simpl. rewrite list_fmap_id.
  by rewrite <-!app_assoc.
Qed.

Lemma permute_columns_try_plain e input output exclude header rows w :
  quiet e header rows → truthy_list exclude = false →
  let n := length header in
  let sh := shuffle (seq 0 n) (draws w) in
  permute_columns_try int e input output exclude w =
  (inr tt,
   World (Some (pick header sh.1 ::
                ((λ r, pick r sh.1) <$> filter (λ r, length r = n) rows))) sh.2
     (log w ++ (skipped n <$> filter (λ r, length r ≠ n) rows)
            ++ [(INFO, ColumnsPermuted input output)])).
Proof.
  intros (Hin & Hout & Hrec & Hw) Ht n sh. unfold permute_columns_try.
  unfold open_input, open_output. rewrite Hin, Hout, Hrec.
  unfold bind at 1. unfold ret at 1. unfold bind at 1.
  unfold bind at 1. unfold next at 1. unfold ret at 1.
  pose proof (plan_header_plain header exclude (set_out_file (Some []) w) Ht)
    as Hplan. cbv zeta in Hplan. unfold bind at 1. rewrite Hplan. clear Hplan.
  erewrite bind_ok; [|unfold writerow; simpl; by rewrite Hw].
  erewrite bind_ok.
  2:{ apply (column_loop _ _ _ _ _ (λ r, pick r sh.1)); [done|].
      intros row w' Hlen. apply permute_row_plain; [done..|].
      apply shuffle_seq_bound. }
  unfold logging, add_log. simpl. by rewrite <-!app_assoc.
Qed.
End engine_facts.

(** ** Runs of the row engine and of [main] *)

Section rows_facts.
Implicit Types (rows : list (list string)) (w : world).

Lemma read_all_records rows w : read_all (Rec <$> rows) w = (inr rows, w).
Proof.
  induction rows as [|row rows IH]; [done|].
  rewrite fmap_cons. cbn [read_all]. by erewrite bind_ok.
Qed.

Lemma writerows_run e rows written ds lg :
  (∀ k, write_fault e k = None) →
  writerows e rows (World (Some written) ds lg) =
  (inr tt, World (Some (written ++ rows)) ds lg).
Proof.
  intros Hw. revert written. induction rows as [|row rows IH]; intros written.
  { simpl. unfold ret. by rewrite app_nil_r. }
  cbn [writerows].
  erewrite bind_ok; [|unfold writerow; simpl; by rewrite Hw].
  unfold set_out_file. simpl. by rewrite IH, <-app_assoc.
Qed.

Lemma permute_rows_try_quiet e input output header rows w :
  quiet e header rows →
  let sh := shuffle rows (draws w) in
  permute_rows_try e input output w =
  (inr tt,
   World (Some (header :: sh.1)) sh.2 (log w ++ [(INFO, RowsPermuted input output)])).
Proof.
  intros (Hin & Hout & Hrec & Hw) sh. unfold permute_rows_try.
  unfold open_input, open_output. rewrite Hin, Hout, Hrec.
  unfold bind at 1. unfold ret at 1. unfold bind at 1.
  unfold bind at 1. unfold next at 1. unfold ret at 1.
  erewrite bind_ok; [|unfold writerow; simpl; by rewrite Hw].
  erewrite bind_ok; [|apply read_all_records].
  rewrite (bind_ok _ _ _ sh.1 (World (Some [header]) sh.2 (log w))).
  2:{ unfold random_shuffle. simpl. fold sh. by destruct sh. }
  erewrite bind_ok; [|by apply writerows_run]. done.
Qed.
End rows_facts.

Section main_facts.
Variable int : string → option Z.
Implicit Types (e : env) (args : Args) (w : world).

Lemma detect_encoding_run e w :
  ∃ enc pre, detect_encoding e w = (inr enc, add_logs pre w).
Proof.
  unfold detect_encoding, try_except. destruct (chardet e) as [ex|enc].
  - exists None, [(ERROR, ErrorDetectingEncoding ex)]. done.
  - exists enc, []. by rewrite add_logs_nil.
Qed.

Lemma validate_input_run e path w :
  validate_input e path w =
  match probe_open e with
  | None => (inr true, w)
  | Some FileNotFoundError => (inr false, add_log (ERROR, InputFileNotFound path) w)
  | Some ex => (inr false, add_log (ERROR, ErrorOpeningInputFile ex) w)
  end.
Proof.
  unfold validate_input, try_except. by destruct (probe_open e) as [[]|].
Qed.

(** What [main] does before it validates the input. *)
Lemma main_prologue e args w :
  ∃ pre, ∀ (k : option string → Run nat),
    bind (if truthy_str (encoding args) then ret (encoding args)
          else
            do detected <- detect_encoding e;
            if truthy_str detected
            then logging INFO (DetectedEncoding (default "" detected)) >> ret detected
            else logging WARNING FailedToDetectEncoding >> ret (Some "utf-8")) k w
    = k (if truthy_str (encoding args) then encoding args
         else match (detect_encoding e w).1 with
              | inr detected => if truthy_str detected then detected else Some "utf-8"
              | inl _ => None
              end) (add_logs pre w).
Proof.
  destruct (truthy_str (encoding args)).
  { exists []. intros k. by rewrite add_logs_nil. }
  destruct (detect_encoding_run e w) as (enc & pre & Hd).
  destruct (truthy_str enc) eqn:Henc.
  - exists (pre ++ [(INFO, DetectedEncoding (default "" enc))]). intros k.
    unfold bind. rewrite Hd. simpl. rewrite Henc.
    unfold logging, ret. by rewrite add_log_logs, add_logs_app.
  - exists (pre ++ [(WARNING, FailedToDetectEncoding)]). intros k.
    unfold bind. rewrite Hd. simpl. rewrite Henc.
    unfold logging, ret. by rewrite add_log_logs, add_logs_app.
Qed.

Lemma main_rejected e args w ex :
  probe_open e = Some ex →
  ∃ pre, main int e args w = (inr 1, add_logs pre w).
Proof.
  intros Hp. destruct (main_prologue e args w) as [pre Hpre].
  unfold main. rewrite Hpre. unfold bind. rewrite validate_input_run, Hp.
  destruct ex; eexists; simpl; unfold ret; by rewrite add_log_logs, add_logs_app.
Qed.

Lemma main_validated e args w :
  probe_open e = None →
  ∃ pre, main int e args w =
    ((if permute_rows_flag args
      then permute_rows e (input_file args) (output_file args)
      else permute_columns int e (input_file args) (output_file args)
             (parse_exclude_columns (exclude_columns args))) >> ret 0)
    (add_logs pre w).
Proof.
  intros Hp. destruct (main_prologue e args w) as [pre Hpre].
  exists pre. unfold main. rewrite Hpre. unfold bind at 1.
  by rewrite validate_input_run, Hp.
Qed.

Lemma try_logging_returns (body : Run unit) (msg : exn → message) w :
  ∃ w', try_except body (λ ex, logging ERROR (msg ex)) w = (inr tt, w').
Proof.
  unfold try_except. destruct (body w) as [[ex|[]] w']; eauto.
Qed.
End main_facts.
(** ** Small facts about the concrete environments *)

Lemma quiet_table_env header rows : quiet (table_env header rows) header rows.
Proof. by split_and!. Qed.

Lemma free_empty n : free ∅ n = seq 0 n.
Proof.
  unfold free. induction n as [|n IH]; [done|].
  rewrite seq_S, filter_app, IH. simpl. rewrite filter_cons, decide_True; [done|].
  apply not_elem_of_empty.
Qed.

(** ** Runs with failures write a prefix of what the quiet run writes *)

Section prefix_facts.
Variable int : string → option Z.
Implicit Types (e : env) (w : world) (header row : list string)
  (rows : list (list string)) (exclude : option (list string)).

Lemma leading_records rows : leading (Rec <$> rows) = rows.
Proof.
  induction rows as [|row rows IH]; [done|].
  rewrite fmap_cons. cbn [leading]. by rewrite IH.
Qed.




(** The caught exception only adds to the log. *)
Lemma try_logging_out_file (body : Run unit) (msg : exn → message) w :
  out_file (try_except body (λ ex, logging ERROR (msg ex)) w).2 = out_file (body w).2.
Proof. unfold try_except. by destruct (body w) as [[ex|[]] w']. Qed.


End prefix_facts.

(** * The claims *)

Section Claims.
Variable int : string → option Z.
Implicit Types (e : env) (w : world) (header row : list string)
  (rows : list (list string)) (exclude : option (list string)).

(** X11. Without exclusion tokens, column mode draws one plan, a
    permutation of the positions [0 .. num_columns - 1], and reads the
    header and every retained row through that same plan. *)
Lemma plain_run_shares_mapping e input output exclude w header rows :
  quiet e header rows → truthy_list exclude = false →
  ∃ plan header' rows',
    out_file (permute_columns int e input output exclude w).2 = Some (header' :: rows')
    ∧ plan ≡ₚ seq 0 (length header)
    ∧ items header plan = Some header'
    ∧ Forall2 (λ row row', items row plan = Some row')
        (filter (λ r, length r = length header) rows) rows'.
Proof.
  intros Hq Ht. unfold permute_columns.
  erewrite try_ok; [|by apply permute_columns_try_plain]. simpl.
  set (sh := shuffle (seq 0 (length header)) (draws w)).
  exists sh.1. do 2 eexists. split_and!; [done|apply shuffle_perm|..].
  - apply items_pick, shuffle_seq_bound.
  - apply Forall2_fmap_r, Forall_Forall2_diag, Forall_forall.
    intros row [Hlen _]%list_elem_of_filter.
    apply items_pick. rewrite Hlen. apply shuffle_seq_bound.
Qed.
End Claims.
Section Column_claims.
Variable int : string → option Z.
Implicit Types (e : env) (w : world) (header row : list string)
  (rows : list (list string)) (exclude : option (list string)).

(** C2. In column mode, every position of the resolved PositionSet keeps
    its input value: in the header written to the output, and in every
    data row written to the output (the rows of the header's width, in
    input order). *)
Theorem excluded_positions_fixed e input output exclude w header rows :
  quiet e header rows →
  ∃ header' rows',
    out_file (permute_columns int e input output exclude w).2 = Some (header' :: rows')
    ∧ (∀ p, p ∈ PositionSet int header exclude → header' !! p = header !! p)
    ∧ Forall2 (λ row row', ∀ p, p ∈ PositionSet int header exclude → row' !! p = row !! p)
        (filter (λ r, length r = length header) rows) rows'.
Proof.
  intros Hq. unfold permute_columns. destruct (truthy_list exclude) eqn:Ht.
  - erewrite try_ok; [|by apply permute_columns_try_excluding]. simpl.
    do 2 eexists. split_and!; [done| |].
    + intros p Hp. by apply weave_excluded.
    + by apply Forall_Forall2_diag, Forall_true.
  - erewrite try_ok; [|by apply permute_columns_try_plain]. simpl.
    rewrite PositionSet_falsy by done.
    do 2 eexists. split_and!; [done|set_solver|].
    apply Forall2_fmap_r, Forall_Forall2_diag, Forall_true. set_solver.
Qed.

(** C5. In column mode, whatever the shuffle draws, the values found at
    the non-excluded positions of the output header are a permutation of
    those of the input header, and likewise for each data row written. *)
Theorem free_values_multiset e input output exclude w header rows :
  quiet e header rows →
  let positions := filter (λ i, i ∉ PositionSet int header exclude) (seq 0 (length header)) in
  ∃ header' rows',
    out_file (permute_columns int e input output exclude w).2 = Some (header' :: rows')
    ∧ (∃ vs vs', items header positions = Some vs
                 ∧ items header' positions = Some vs' ∧ vs' ≡ₚ vs)
    ∧ Forall2 (λ row row', ∃ vs vs', items row positions = Some vs
                                     ∧ items row' positions = Some vs' ∧ vs' ≡ₚ vs)
        (filter (λ r, length r = length header) rows) rows'.
Proof.
  intros Hq positions. unfold permute_columns.
  destruct (truthy_list exclude) eqn:Ht.
  - erewrite try_ok; [|by apply permute_columns_try_excluding]. simpl.
    set (X := PositionSet int header exclude) in *.
    set (sh := shuffle (pick header (free X (length header))) (draws w)).
    do 2 eexists. split_and!; [done| |].
    + exists (pick header positions), sh.1. split_and!.
      * apply items_pick, free_bound.
      * rewrite items_pick by (rewrite weave_length; apply free_bound).
        f_equal. apply pick_weave_free.
        unfold sh. by rewrite shuffle_length, pick_length.
      * apply shuffle_perm.
    + apply Forall_Forall2_diag, Forall_forall.
      intros row [Hlen _]%list_elem_of_filter.
      exists (pick row positions), (pick row positions). split_and!; [| |done];
        apply items_pick; rewrite Hlen; apply free_bound.
  - erewrite try_ok; [|by apply permute_columns_try_plain]. simpl.
    subst positions. rewrite PositionSet_falsy by done.
    fold (free ∅ (length header)). rewrite free_empty.
    set (sh := shuffle (seq 0 (length header)) (draws w)).
    assert (∀ row, length row = length header →
      ∃ vs vs', items row (seq 0 (length header)) = Some vs
                ∧ items (pick row sh.1) (seq 0 (length header)) = Some vs'
                ∧ vs' ≡ₚ vs) as Hrow.
    { intros row Hlen. exists row, (pick row sh.1). split_and!.
      - rewrite <-Hlen, items_pick, pick_all; [done|].
        apply Forall_forall. intros i Hi%elem_of_seq. lia.
      - assert (length (pick row sh.1) = length header) as Hl
          by (unfold sh; by rewrite pick_length, shuffle_length, length_seq).
        rewrite <-Hl at 1. rewrite items_pick, pick_all; [done|].
        apply Forall_forall. intros i Hi%elem_of_seq. lia.
      - rewrite (pick_perm row sh.1 (seq 0 (length header))) by apply shuffle_perm.
        by rewrite <-Hlen, pick_all. }
    do 2 eexists. split_and!; [done|by apply Hrow|].
    apply Forall2_fmap_r, Forall_Forall2_diag, Forall_forall.
    intros row [Hlen _]%list_elem_of_filter. by apply Hrow.
Qed.

(** C9. In column mode, as soon as the list of exclusion tokens is not
    empty (whether or not any token resolves), every data row written
    keeps each value at its position, the non-excluded positions
    included; the shuffle reorders the non-excluded values of the header
    only. *)
Theorem excluding_rows_unmoved e input output exclude w header rows :
  quiet e header rows → truthy_list exclude = true →
  let positions := filter (λ i, i ∉ PositionSet int header exclude) (seq 0 (length header)) in
  ∃ header' rows',
    out_file (permute_columns int e input output exclude w).2 = Some (header' :: rows')
    ∧ Forall2 (λ row row', ∀ i, i ∉ PositionSet int header exclude → row' !! i = row !! i)
        (filter (λ r, length r = length header) rows) rows'
    ∧ rows' = filter (λ r, length r = length header) rows
    ∧ ∃ vs, items header positions = Some vs
            ∧ items header' positions = Some (shuffle vs (draws w)).1.
Proof.
  intros Hq Ht positions. unfold permute_columns.
  erewrite try_ok; [|by apply permute_columns_try_excluding]. simpl.
  set (X := PositionSet int header exclude) in *.
  do 2 eexists. split_and!; [done| |done|].
  - by apply Forall_Forall2_diag, Forall_true.
  - exists (pick header positions). split; [apply items_pick, free_bound|].
    rewrite items_pick by (rewrite weave_length; apply free_bound).
    f_equal. apply pick_weave_free. by rewrite shuffle_length, pick_length.
Qed.
End Column_claims.
Section Width_and_rows.
Variable int : string → option Z.
Implicit Types (e : env) (w : world) (header row : list string)
  (rows : list (list string)) (exclude : option (list string)).

Lemma complaints_not_skipping header tokens :
  Forall (λ entry, entry.1 = WARNING ∧ ∀ len n, entry.2 ≠ SkippingRow len n)
    (complaints int header tokens).
Proof.
  unfold complaints. apply Forall_fmap, Forall_true. intros col.
  unfold complaint. simpl. by destruct (int col).
Qed.

(** C3, as amended. Column mode writes exactly the data rows that have
    the header's field count, logs one warning for each of the other rows,
    in input order, and runs to its end. Row mode has no such filter: it
    writes a permutation of all the data rows, whatever their field
    counts, and logs no warning. *)
Theorem width_filter_in_column_mode_only e input output exclude w header rows :
  quiet e header rows →
  let n := length header in
  (∃ header' rows' ds resolver_warnings,
     permute_columns int e input output exclude w =
       (inr tt,
        World (Some (header' :: rows')) ds
          (log w ++ resolver_warnings
                 ++ (skipped n <$> filter (λ r, length r ≠ n) rows)
                 ++ [(INFO, ColumnsPermuted input output)]))
     ∧ Forall (λ r, length r = n) rows'
     ∧ length rows' = length (filter (λ r, length r = n) rows)
     ∧ (∀ r, length r ≠ n → r ∉ rows')
     ∧ Forall (λ entry, entry.1 = WARNING ∧ ∀ len k, entry.2 ≠ SkippingRow len k)
         resolver_warnings)
  ∧ (∃ rows' ds,
       permute_rows e input output w =
         (inr tt,
          World (Some (header :: rows')) ds (log w ++ [(INFO, RowsPermuted input output)]))
       ∧ rows' ≡ₚ rows).
Proof.
  intros Hq n. split.
  - unfold permute_columns. destruct (truthy_list exclude) eqn:Ht.
    + erewrite try_ok; [|by apply permute_columns_try_excluding].
      do 4 eexists. split; [done|].
      assert (Forall (λ r, length r = n) (filter (λ r, length r = n) rows)) as Hall.
      { apply Forall_forall. by intros r [? _]%list_elem_of_filter. }
      split_and!; [done|done| |apply complaints_not_skipping].
      intros r Hr Hin. by eapply Forall_forall in Hall.
    + erewrite try_ok; [|by apply permute_columns_try_plain].
      exists (pick header (shuffle (seq 0 n) (draws w)).1).
      eexists _, _, []. split; [done|].
      assert (Forall (λ r, length r = n)
        ((λ r, pick r (shuffle (seq 0 n) (draws w)).1)
           <$> filter (λ r, length r = n) rows)) as Hall.
      { apply Forall_fmap, Forall_true. intros r. simpl.
        by rewrite pick_length, shuffle_length, length_seq. }
      split_and!; [done|by rewrite length_fmap| |done].
      intros r Hr Hin. by eapply Forall_forall in Hall.
  - unfold permute_rows.
    erewrite try_ok; [|by apply permute_rows_try_quiet].
    do 2 eexists. split; [done|]. apply shuffle_perm.
Qed.

(** C4. In row mode the header is written first and unchanged, and the
    data rows written after it are a permutation of the input's data rows,
    each one compared as a whole record: every written row is one of the
    input rows with its fields as they were. *)
Theorem row_mode_multiset e input output w header rows :
  quiet e header rows →
  ∃ rows',
    out_file (permute_rows e input output w).2 = Some (header :: rows')
    ∧ rows' ≡ₚ rows
    ∧ Forall (λ row', row' ∈ rows) rows'.
Proof.
  intros Hq. unfold permute_rows.
  erewrite try_ok; [|by apply permute_rows_try_quiet]. simpl.
  eexists. split_and!; [done|apply shuffle_perm|].
  apply Forall_forall. intros row' Hin. by rewrite shuffle_perm in Hin.
Qed.
End Width_and_rows.

Section Resolver_claim.
Variable int : string → option Z.

(** C6. One exclusion token: a token that [int] reads as an integer inside
    [[0, num_columns)], or else names a header field (exactly, first
    match), adds the position it designates and logs nothing; any other
    token leaves the set as it was and logs one warning; neither fails.
    The whole list: the resolver returns the set of designated positions,
    having logged one warning for each token that designates none, and
    nothing else. A token whose position is already in the set changes
    nothing. *)
Theorem column_resolver_tokens (header : list string) :
  (∀ X col w p, designates int header col p →
       exclude_token int header X col w = (inr (X ∪ {[p]}), w))
  ∧ (∀ X col w, (∀ p, ¬ designates int header col p) →
       ∃ msg, exclude_token int header X col w = (inr X, add_log (WARNING, msg) w))
  ∧ (∀ tokens w, ∃ X warnings,
       resolve int header tokens w =
         (inr X, World (out_file w) (draws w) (log w ++ warnings))
       ∧ (∀ p, p ∈ X ↔ ∃ col, col ∈ tokens ∧ designates int header col p)
       ∧ (∀ p, p ∈ X → p < length header)
       ∧ Forall (λ entry, entry.1 = WARNING) warnings
       ∧ length warnings =
           length (filter (λ col, designated int header col = None) tokens))
  ∧ (∀ col, designated int header col = None ↔ ∀ p, ¬ designates int header col p)
  ∧ (∀ X col w p, designates int header col p → p ∈ X →
       exclude_token int header X col w = (inr X, w)).
Proof.
  split_and!.
  - intros X col w p Hp%designated_Some. by rewrite exclude_token_run, Hp.
  - intros X col w Hno%designated_None. rewrite exclude_token_run, Hno.
    unfold complaint. destruct (int col); eauto.
  - intros tokens w. do 2 eexists. split; [apply resolve_run|]. split_and!.
    + apply elem_of_resolved.
    + intros p (col & _ & Hp%designated_Some)%elem_of_resolved.
      by eapply designated_bound.
    + eapply Forall_impl; [apply complaints_not_skipping|]. by intros ? [? _].
    + unfold complaints. by rewrite length_fmap.
  - apply designated_None.
  - intros X col w p Hp%designated_Some Hin. rewrite exclude_token_run, Hp.
    f_equal. f_equal. rewrite (comm_L (∪)).
    by apply subseteq_union_1_L, singleton_subseteq_l.
Qed.
End Resolver_claim.
Section Process_claims.
Variable int : string → option Z.
Implicit Types (e : env) (args : Args) (w : world).

(** C7. When the open of [validate_input] fails, whatever the exception,
    [main] ends with exit status 1, and the output file is what it was
    before the run: only the log has grown. *)
Theorem validation_failure_exits_nonzero e args w ex :
  probe_open e = Some ex →
  ∃ logged,
    main int e args w = (inr 1, World (out_file w) (draws w) (log w ++ logged))
    ∧ last logged = Some (ERROR, match ex with
                                 | FileNotFoundError => InputFileNotFound (input_file args)
                                 | _ => ErrorOpeningInputFile ex
                                 end).
Proof.
  intros Hp. destruct (main_prologue e args w) as [pre Hpre].
  unfold main. rewrite Hpre. unfold bind. rewrite validate_input_run, Hp.
  destruct ex; eexists (pre ++ [_]); simpl; unfold ret;
    rewrite add_log_logs, add_logs_app, last_snoc; done.
Qed.

(** C8. Once the input is validated, [main] ends with exit status 0
    whatever fails afterwards. An exception raised inside the [try] block
    of either permutation function is caught there: the function returns
    normally, and the world it returns is the world in which the exception
    was raised (the output file as far as it was written) with one ERROR
    entry appended to the log. *)
Theorem permutation_faults_swallowed e args w :
  probe_open e = None →
  (∃ w', main int e args w = (inr 0, w'))
  ∧ (∀ input output exclude w0 ex w1,
       permute_columns_try int e input output exclude w0 = (inl ex, w1) →
       permute_columns int e input output exclude w0 =
         (inr tt, add_log (ERROR, ErrorPermutingColumns ex) w1))
  ∧ (∀ input output w0 ex w1,
       permute_rows_try e input output w0 = (inl ex, w1) →
       permute_rows e input output w0 =
         (inr tt, add_log (ERROR, ErrorPermutingRows ex) w1)).
Proof.
  intros Hp. split_and!.
  - destruct (main_validated int e args w Hp) as [pre ->].
    unfold bind. destruct (permute_rows_flag args).
    + destruct (try_logging_returns (permute_rows_try e (input_file args) (output_file args))
        ErrorPermutingRows (add_logs pre w)) as [w' Hw'].
      unfold permute_rows. rewrite Hw'. by eexists.
    + destruct (try_logging_returns
        (permute_columns_try int e (input_file args) (output_file args)
           (parse_exclude_columns (exclude_columns args)))
        ErrorPermutingColumns (add_logs pre w)) as [w' Hw'].
      unfold permute_columns. rewrite Hw'. by eexists.
  - intros input output exclude w0 ex w1 Hraise.
    unfold permute_columns. by erewrite try_caught.
  - intros input output w0 ex w1 Hraise.
    unfold permute_rows. by erewrite try_caught.
Qed.

(** C10. When the input opens but holds no record, in either mode the
    [try] block raises StopIteration in a world whose output file has
    already been created or truncated to empty; [main] logs it as an
    error, writes no record and ends with exit status 0. *)
Theorem empty_input_truncates_output e args w :
  probe_open e = None → input_open e = None → output_open e = None →
  records e = [] →
  (∀ input output exclude w0,
     permute_columns_try int e input output exclude w0 =
       (inl StopIteration, set_out_file (Some []) w0))
  ∧ (∀ input output w0,
       permute_rows_try e input output w0 = (inl StopIteration, set_out_file (Some []) w0))
  ∧ ∃ logged,
      main int e args w =
        (inr 0,
         World (Some []) (draws w)
           (log w ++ logged ++
              [(ERROR, if permute_rows_flag args
                       then ErrorPermutingRows StopIteration
                       else ErrorPermutingColumns StopIteration)])).
Proof.
  intros Hp Hin Hout Hrec.
  assert (∀ input output exclude w0,
     permute_columns_try int e input output exclude w0 =
       (inl StopIteration, set_out_file (Some []) w0)) as Hcols.
  { intros. unfold permute_columns_try, open_input, open_output, bind.
    by rewrite Hin, Hout, Hrec. }
  assert (∀ input output w0,
     permute_rows_try e input output w0 =
       (inl StopIteration, set_out_file (Some []) w0)) as Hrows.
  { intros. unfold permute_rows_try, open_input, open_output, bind.
    by rewrite Hin, Hout, Hrec. }
  split_and!; [done..|].
  destruct (main_validated int e args w Hp) as [pre ->]. exists pre.
  unfold bind. destruct (permute_rows_flag args).
  - unfold permute_rows. erewrite try_caught; [|apply Hrows].
    unfold logging, add_log, ret. simpl. by rewrite app_assoc.
  - unfold permute_columns. erewrite try_caught; [|apply Hcols].
    unfold logging, add_log, ret. simpl. by rewrite app_assoc.
Qed.
End Process_claims.
(** ** The claims at concrete inputs *)

(** C1. With an exclusion list, here the single token [a], and a shuffle
    that swaps the two remaining names, the header is written as
    [a,c,b] while the data row is written as it was read: position 1 of
    the header holds the name read at position 2, position 1 of the row
    holds the value read at position 1. No positional plan accounts for
    both records. *)
Theorem excluding_run_moves_header_alone :
  let header := ["a"; "b"; "c"] in
  let row := ["1"; "2"; "3"] in
  out_file (permute_columns int_decimal (table_env header [row]) "in.csv" "out.csv"
              (Some ["a"]) (fresh [0])).2
  = Some [["a"; "c"; "b"]; ["1"; "2"; "3"]]
  ∧ ¬ ∃ plan, items header plan = Some ["a"; "c"; "b"]
              ∧ items row plan = Some ["1"; "2"; "3"].
Proof.
  split; [vm_compute; reflexivity|].
  intros (plan & Hh%mapM_Some & Hr%mapM_Some).
  inversion Hh as [|i name plan1 names1 Hi Hh1]; subst.
  inversion Hh1 as [|j name plan2 names2 Hj Hh2]; subst.
  inversion Hr as [|i' val plan1' vals1 _ Hr1]; subst.
  inversion Hr1 as [|j' val plan2' vals2 Hj' _]; subst.
  destruct j as [|[|[|j]]]; discriminate.
Qed.

Lemma excluded_positions_fixed_witness :
  ∃ header' rows',
    out_file (permute_columns int_decimal (table_env demo_header demo_rows)
                "in.csv" "out.csv" (Some ["b"; "3"]) (fresh [1; 0])).2
      = Some (header' :: rows')
    ∧ (∀ p, p ∈ PositionSet int_decimal demo_header (Some ["b"; "3"]) →
            header' !! p = demo_header !! p)
    ∧ Forall2 (λ row row', ∀ p, p ∈ PositionSet int_decimal demo_header (Some ["b"; "3"]) →
                                row' !! p = row !! p)
        (filter (λ r, length r = length demo_header) demo_rows) rows'.
Proof.
  apply (excluded_positions_fixed int_decimal (table_env demo_header demo_rows)).
  repeat split; intros; reflexivity.
Defined.

Lemma free_values_multiset_witness :
  let positions :=
    filter (λ i, i ∉ PositionSet int_decimal demo_header (Some ["b"; "3"]))
      (seq 0 (length demo_header)) in
  ∃ header' rows',
    out_file (permute_columns int_decimal (table_env demo_header demo_rows)
                "in.csv" "out.csv" (Some ["b"; "3"]) (fresh [1; 0])).2
      = Some (header' :: rows')
    ∧ (∃ vs vs', items demo_header positions = Some vs
                 ∧ items header' positions = Some vs' ∧ vs' ≡ₚ vs)
    ∧ Forall2 (λ row row', ∃ vs vs', items row positions = Some vs
                                     ∧ items row' positions = Some vs' ∧ vs' ≡ₚ vs)
        (filter (λ r, length r = length demo_header) demo_rows) rows'.
Proof.
  apply (free_values_multiset int_decimal (table_env demo_header demo_rows)).
  repeat split; intros; reflexivity.
Defined.

Lemma excluding_rows_unmoved_witness :
  let positions :=
    filter (λ i, i ∉ PositionSet int_decimal demo_header (Some ["zzz"; "99"]))
      (seq 0 (length demo_header)) in
  ∃ header' rows',
    out_file (permute_columns int_decimal (table_env demo_header demo_rows)
                "in.csv" "out.csv" (Some ["zzz"; "99"]) (fresh [1; 0; 0])).2
      = Some (header' :: rows')
    ∧ Forall2 (λ row row', ∀ i, i ∉ PositionSet int_decimal demo_header (Some ["zzz"; "99"]) →
                                row' !! i = row !! i)
        (filter (λ r, length r = length demo_header) demo_rows) rows'
    ∧ rows' = filter (λ r, length r = length demo_header) demo_rows
    ∧ ∃ vs, items demo_header positions = Some vs
            ∧ items header' positions = Some (shuffle vs (draws (fresh [1; 0; 0]))).1.
Proof.
  apply (excluding_rows_unmoved int_decimal (table_env demo_header demo_rows)).
  - repeat split; intros; reflexivity.
  - reflexivity.
Defined.

(** C3 fails in row mode: the row [1], of one field under a header of
    two, is written to the output, and nothing is logged about it. *)
Lemma row_mode_keeps_ragged_row :
  let header := ["a"; "b"] in
  let rows := [["1"]] in
  let after := (permute_rows (table_env header rows) "in.csv" "out.csv" (fresh [])).2 in
  quiet (table_env header rows) header rows
  ∧ Forall (λ row, length row ≠ length header) rows
  ∧ out_file after = Some [["a"; "b"]; ["1"]]
  ∧ log after = [(INFO, RowsPermuted "in.csv" "out.csv")].
Proof.
  split_and!; [repeat split; intros; reflexivity| |reflexivity..].
  repeat constructor. simpl. lia.
Qed.

Lemma width_filter_in_column_mode_only_witness :
  let e := table_env demo_header demo_rows in
  let n := length demo_header in
  (∃ header' rows' ds resolver_warnings,
     permute_columns int_decimal e "in.csv" "out.csv" None (fresh [3; 1]) =
       (inr tt,
        World (Some (header' :: rows')) ds
          (log (fresh [3; 1]) ++ resolver_warnings
                 ++ (skipped n <$> filter (λ r, length r ≠ n) demo_rows)
                 ++ [(INFO, ColumnsPermuted "in.csv" "out.csv")]))
     ∧ Forall (λ r, length r = n) rows'
     ∧ length rows' = length (filter (λ r, length r = n) demo_rows)
     ∧ (∀ r, length r ≠ n → r ∉ rows')
     ∧ Forall (λ entry, entry.1 = WARNING ∧ ∀ len k, entry.2 ≠ SkippingRow len k)
         resolver_warnings)
  ∧ (∃ rows' ds,
       permute_rows e "in.csv" "out.csv" (fresh [3; 1]) =
         (inr tt,
          World (Some (demo_header :: rows')) ds
            (log (fresh [3; 1]) ++ [(INFO, RowsPermuted "in.csv" "out.csv")]))
       ∧ rows' ≡ₚ demo_rows).
Proof.
  apply (width_filter_in_column_mode_only int_decimal (table_env demo_header demo_rows)).
  repeat split; intros; reflexivity.
Defined.

Lemma row_mode_multiset_witness :
  ∃ rows',
    out_file (permute_rows (table_env demo_header demo_rows) "in.csv" "out.csv"
                (fresh [2; 0])).2 = Some (demo_header :: rows')
    ∧ rows' ≡ₚ demo_rows
    ∧ Forall (λ row', row' ∈ demo_rows) rows'.
Proof.
  apply (row_mode_multiset (table_env demo_header demo_rows)).
  repeat split; intros; reflexivity.
Defined.

Lemma validation_failure_exits_nonzero_witness :
  ∃ logged,
    main int_decimal missing_env (column_args "b,3") (World (Some [["old"]]) [] [])
      = (inr 1, World (Some [["old"]]) [] ([] ++ logged))
    ∧ last logged = Some (ERROR, InputFileNotFound "in.csv").
Proof.
  apply (validation_failure_exits_nonzero int_decimal missing_env (column_args "b,3")
           (World (Some [["old"]]) [] []) FileNotFoundError).
  reflexivity.
Defined.

Lemma permutation_faults_swallowed_witness :
  let e := full_disk_env demo_header demo_rows in
  (∃ w', main int_decimal e row_args (fresh [2; 0]) = (inr 0, w'))
  ∧ (∀ input output exclude w0 ex w1,
       permute_columns_try int_decimal e input output exclude w0 = (inl ex, w1) →
       permute_columns int_decimal e input output exclude w0 =
         (inr tt, add_log (ERROR, ErrorPermutingColumns ex) w1))
  ∧ (∀ input output w0 ex w1,
       permute_rows_try e input output w0 = (inl ex, w1) →
       permute_rows e input output w0 =
         (inr tt, add_log (ERROR, ErrorPermutingRows ex) w1)).
Proof.
  apply (permutation_faults_swallowed int_decimal (full_disk_env demo_header demo_rows)
           row_args (fresh [2; 0])).
  reflexivity.
Defined.

Lemma empty_input_truncates_output_witness :
  let e := empty_env in
  let w := World (Some [["old"]]) [] [] in
  (∀ input output exclude w0,
     permute_columns_try int_decimal e input output exclude w0 =
       (inl StopIteration, set_out_file (Some []) w0))
  ∧ (∀ input output w0,
       permute_rows_try e input output w0 = (inl StopIteration, set_out_file (Some []) w0))
  ∧ ∃ logged,
      main int_decimal e row_args w =
        (inr 0,
         World (Some []) (draws w)
           (log w ++ logged ++ [(ERROR, ErrorPermutingRows StopIteration)])).
Proof.
  apply (empty_input_truncates_output int_decimal empty_env row_args
           (World (Some [["old"]]) [] [])); reflexivity.
Defined.

(** * Further properties of the code *)

(** ** Whole records in column mode *)

Section record_perm_facts.
Variable X : gset nat.
Implicit Types (source values : list string).

Lemma pick_app l indices indices' :
  pick l (indices ++ indices') = pick l indices ++ pick l indices'.
Proof. unfold pick. by rewrite fmap_app. Qed.

(** A rebuilt record holds the excluded values of its source and the
    values it consumed, and nothing else. *)
Lemma weave_perm source values n :
  n ≤ length source → length (free X n) ≤ length values →
  weave X source values n ≡ₚ
  pick source (filter (λ i, i ∈ X) (seq 0 n)) ++ take (length (free X n)) values.
Proof.
  induction n as [|n IH]; intros Hsrc Hval; [done|].
  rewrite weave_S, seq_S, filter_app, free_S, pick_app. simpl.
  rewrite filter_cons, filter_nil.
  rewrite free_S in Hval. destruct (decide (n ∈ X)) as [Hn|Hn].
  - rewrite app_nil_r in Hval |- *. rewrite IH by (done || lia).
    change (pick source [n]) with [default "" (source !! n)].
    rewrite <-!app_assoc. f_equiv. apply Permutation_app_comm.
  - rewrite length_app in Hval |- *. simpl in *.
    destruct (lookup_lt_is_Some_2 values (length (free X n))) as [v Hv]; [lia|].
    rewrite Nat.add_1_r, (take_S_r _ _ v), Hv by done. simpl.
    rewrite IH by lia. change (pick source []) with (@nil string).
    by rewrite app_nil_r, <-!app_assoc.
Qed.

Lemma weave_shuffled source values n :
  n = length source → values ≡ₚ pick source (free X n) →
  weave X source values n ≡ₚ source.
Proof.
  intros -> Hperm.
  assert (length values = length (free X (length source))) as Hlen
    by (by rewrite Hperm, pick_length).
  rewrite weave_perm by lia. rewrite take_ge by lia. rewrite Hperm.
  transitivity (weave X source (pick source (free X (length source))) (length source));
    [|by rewrite weave_self].
  rewrite weave_perm by (done || by rewrite pick_length).
  by rewrite take_ge by (by rewrite pick_length).
Qed.
End record_perm_facts.

Section Whole_records.
Variable int : string → option Z.
Implicit Types (e : env) (w : world) (header row : list string)
  (rows : list (list string)) (exclude : option (list string)).

(** X1. In column mode, the header written is a permutation of the header
    read, and every data row written is a permutation of the retained row
    it comes from, in input order: no value is lost, invented or
    duplicated, and every written record has the header's field count. *)
Theorem column_mode_records_are_permutations e input output exclude w header rows :
  quiet e header rows →
  ∃ header' rows',
    out_file (permute_columns int e input output exclude w).2 = Some (header' :: rows')
    ∧ header' ≡ₚ header
    ∧ Forall2 (λ row row', row' ≡ₚ row)
        (filter (λ r, length r = length header) rows) rows'
    ∧ Forall (λ record, length record = length header) (header' :: rows').
Proof.
  intros Hq.
  assert (∀ header' rows',
    header' ≡ₚ header →
    Forall2 (λ row row', row' ≡ₚ row) (filter (λ r, length r = length header) rows) rows' →
    Forall (λ record, length record = length header) (header' :: rows')) as Hwidth.
  { intros header' rows' Hh Hr. constructor; [by rewrite Hh|].
    apply Forall_forall. intros row' Hin.
    apply list_elem_of_lookup in Hin as [k Hk].
    destruct (Forall2_lookup_r _ _ _ _ _ Hr Hk) as (row & Hrow & Hperm).
    apply list_elem_of_lookup_2, list_elem_of_filter in Hrow as [Hlen _].
    by rewrite Hperm. }
  unfold permute_columns. destruct (truthy_list exclude) eqn:Ht.
  - erewrite try_ok; [|by apply permute_columns_try_excluding]. simpl.
    do 2 eexists. split; [done|].
    assert (weave (PositionSet int header exclude) header
              (shuffle (pick header (free (PositionSet int header exclude) (length header)))
                 (draws w)).1 (length header) ≡ₚ header) as Hh
      by (apply weave_shuffled; [done|apply shuffle_perm]).
    assert (Forall2 (λ row row', row' ≡ₚ row)
              (filter (λ r, length r = length header) rows)
              (filter (λ r, length r = length header) rows)) as Hr
      by (by apply Forall_Forall2_diag, Forall_true).
    split_and!; [done|done|by apply Hwidth].
  - erewrite try_ok; [|by apply permute_columns_try_plain]. simpl.
    set (plan := (shuffle (seq 0 (length header)) (draws w)).1).
    assert (∀ row, length row = length header → pick row plan ≡ₚ row) as Hpick.
    { intros row Hlen.
      rewrite (pick_perm row plan (seq 0 (length header))) by apply shuffle_perm.
      by rewrite <-Hlen, pick_all. }
    do 2 eexists. split; [done|].
    assert (Forall2 (λ row row', row' ≡ₚ row)
              (filter (λ r, length r = length header) rows)
              ((λ r, pick r plan) <$> filter (λ r, length r = length header) rows)) as Hr.
    { apply Forall2_fmap_r, Forall_Forall2_diag, Forall_forall.
      intros row [Hlen _]%list_elem_of_filter. by apply Hpick. }
    split_and!; [by apply Hpick|done|apply Hwidth; [by apply Hpick|done]].
Qed.
End Whole_records.

(** ** Degenerate shuffles *)

Lemma shuffle_short {A} (x : list A) ds : length x ≤ 1 → shuffle x ds = (x, ds).
Proof. destruct x as [|a [|b x]]; simpl; [done|done|lia]. Qed.

Lemma weave_empty source values n :
  length values = n → weave ∅ source values n = values.
Proof.
  intros Hlen.
  assert (length values = length (free ∅ n)) as Hfree
    by (by rewrite free_empty, length_seq).
  pose proof (pick_weave_free ∅ source values n Hfree) as Hpick.
  rewrite free_empty in Hpick.
  assert (pick (weave ∅ source values n) (seq 0 (length (weave ∅ source values n)))
          = values) as Hall by (by rewrite weave_length).
  by rewrite pick_all in Hall.
Qed.

Section Degenerate.
Variable int : string → option Z.
Implicit Types (e : env) (w : world) (header row : list string)
  (rows : list (list string)) (exclude : option (list string)).

(** X2. When at most one column is left to permute (all columns but one
    excluded, or a header of at most one field), column mode copies the
    header and every row of the header's width as they are, and draws no
    random number. *)
Theorem nothing_to_shuffle e input output exclude w header rows :
  quiet e header rows →
  length (filter (λ i, i ∉ PositionSet int header exclude) (seq 0 (length header))) ≤ 1 →
  out_file (permute_columns int e input output exclude w).2
    = Some (header :: filter (λ r, length r = length header) rows)
  ∧ draws (permute_columns int e input output exclude w).2 = draws w.
Proof.
  intros Hq Hfree. unfold permute_columns. destruct (truthy_list exclude) eqn:Ht.
  - erewrite try_ok; [|by apply permute_columns_try_excluding]. simpl.
    fold (free (PositionSet int header exclude) (length header)) in Hfree.
    rewrite shuffle_short by (by rewrite pick_length). simpl.
    by rewrite weave_self.
  - erewrite try_ok; [|by apply permute_columns_try_plain]. simpl.
    rewrite PositionSet_falsy in Hfree by done.
    fold (free ∅ (length header)) in Hfree. rewrite free_empty in Hfree.
    rewrite shuffle_short by done. simpl. rewrite pick_all. split; [|done].
    do 2 f_equal.
    transitivity (id <$> filter (λ r, length r = length header) rows);
      [|apply list_fmap_id].
    apply Forall_fmap_ext, Forall_forall.
    intros row [Hlen _]%list_elem_of_filter. simpl. by rewrite <-Hlen, pick_all.
Qed.

(** X3. Exclusion tokens that all fail to resolve change nothing for the
    header: it is shuffled exactly as it is without any token, from the
    same draws. The rows differ: with the tokens they are written as read,
    without them they follow the header's plan. *)
Theorem unresolved_tokens_same_header e input output exclude w header rows :
  quiet e header rows → truthy_list exclude = true →
  PositionSet int header exclude = ∅ →
  ∃ header' plan,
    out_file (permute_columns int e input output exclude w).2
      = Some (header' :: filter (λ r, length r = length header) rows)
    ∧ out_file (permute_columns int e input output None w).2
      = Some (header' :: ((λ r, pick r plan) <$> filter (λ r, length r = length header) rows))
    ∧ header' = pick header plan
    ∧ plan = (shuffle (seq 0 (length header)) (draws w)).1.
Proof.
  intros Hq Ht HX. unfold permute_columns.
  erewrite try_ok; [|by apply permute_columns_try_excluding].
  erewrite try_ok; [|by apply permute_columns_try_plain]. simpl.
  rewrite HX, free_empty, pick_all.
  rewrite weave_empty by (by rewrite shuffle_length).
  do 2 eexists. split_and!; [| |done..]; [|done].
  do 2 f_equal. rewrite <-(pick_all header) at 1. unfold pick at 1.
  by rewrite shuffle_fmap.
Qed.
End Degenerate.

(** ** Failures around the permutation *)

Lemma for_each_record_app rows reader (body : list string → Run unit) w :
  for_each_record ((Rec <$> rows) ++ reader) body w =
  (for_each_record (Rec <$> rows) body >> for_each_record reader body) w.
Proof.
  revert w. induction rows as [|row rows IH]; intros w; [done|].
  rewrite fmap_cons. cbn [app for_each_record]. unfold bind.
  destruct (body row w) as [[ex|[]] w']; [done|]. rewrite IH. by unfold bind.
Qed.

Lemma read_all_fault rows ex reader w :
  read_all ((Rec <$> rows) ++ Fault ex :: reader) w = (inl ex, w).
Proof.
  induction rows as [|row rows IH]; [done|].
  rewrite fmap_cons. cbn [app read_all]. unfold bind. by rewrite IH.
Qed.

Section Failures.
Variable int : string → option Z.
Implicit Types (e : env) (args : Args) (w : world) (header row : list string)
  (rows : list (list string)) (exclude : option (list string)).

(** X4. The input file is opened before the output file. When the input
    fails to open, or the input opens and the output does not, neither
    function creates, truncates or writes the output file: it returns
    normally with the world it was given and one ERROR entry more. *)
Theorem failed_open_keeps_output e input output exclude w ex :
  input_open e = Some ex ∨ (input_open e = None ∧ output_open e = Some ex) →
  permute_columns int e input output exclude w
    = (inr tt, add_log (ERROR, ErrorPermutingColumns ex) w)
  ∧ permute_rows e input output w
    = (inr tt, add_log (ERROR, ErrorPermutingRows ex) w).
Proof.
  intros Hopen.
  assert (permute_columns_try int e input output exclude w = (inl ex, w)
          ∧ permute_rows_try e input output w = (inl ex, w)) as [Hc Hr].
  { unfold permute_columns_try, permute_rows_try, open_input, open_output, bind.
    destruct Hopen as [->|[-> ->]]; done. }
  unfold permute_columns, permute_rows.
  by rewrite (try_caught _ _ _ _ _ Hc), (try_caught _ _ _ _ _ Hr).
Qed.

(** X5. The exit status of [main] is decided by [validate_input] alone: 1
    when its open fails, 0 otherwise, whatever chardet answers and
    whatever fails while permuting. *)
Theorem main_exit_status e args w :
  (main int e args w).1 = inr (match probe_open e with Some _ => 1 | None => 0 end).
Proof.
  destruct (probe_open e) as [ex|] eqn:Hp.
  - destruct (main_rejected int e args w ex Hp) as [pre ->]. done.
  - destruct (main_validated int e args w Hp) as [pre ->].
    unfold bind. destruct (permute_rows_flag args).
    + destruct (try_logging_returns (permute_rows_try e (input_file args) (output_file args))
        ErrorPermutingRows (add_logs pre w)) as [w' Hw'].
      unfold permute_rows. by rewrite Hw'.
    + destruct (try_logging_returns
        (permute_columns_try int e (input_file args) (output_file args)
           (parse_exclude_columns (exclude_columns args)))
        ErrorPermutingColumns (add_logs pre w)) as [w' Hw'].
      unfold permute_columns. by rewrite Hw'.
Qed.

(** X6. A read failure in the middle of the file, with writes that all
    succeed. Row mode has written the header and nothing else, and has
    drawn no random number, since it reads every row before it writes
    one. Column mode has written, besides its header, every row read
    before the failure, exactly as the run on the file cut at the failure
    writes them. Both log the exception as an error. *)
Theorem mid_file_read_fault e input output exclude w header rows ex reader :
  input_open e = None → output_open e = None →
  records e = Rec header :: (Rec <$> rows) ++ Fault ex :: reader →
  (∀ k, write_fault e k = None) →
  permute_rows e input output w
    = (inr tt, World (Some [header]) (draws w) (log w ++ [(ERROR, ErrorPermutingRows ex)]))
  ∧ out_file (permute_columns int e input output exclude w).2
    = out_file (permute_columns int (table_env header rows) input output exclude w).2
  ∧ last (log (permute_columns int e input output exclude w).2)
    = Some (ERROR, ErrorPermutingColumns ex).
Proof.
  intros Hin Hout Hrec Hw. split.
  { unfold permute_rows. erewrite try_caught.
    2:{ unfold permute_rows_try, open_input, open_output. rewrite Hin, Hout, Hrec.
        unfold bind at 1. unfold ret at 1. unfold bind at 1.
        unfold bind at 1. unfold next at 1. unfold ret at 1.
        erewrite bind_ok; [|unfold writerow; simpl; by rewrite Hw].
        erewrite bind_fail; [done|]. apply read_all_fault. }
    done. }
  pose proof (quiet_table_env header rows) as Hq.
  assert (∀ pl w2 (f : list string → list string),
    plan_header int header exclude (set_out_file (Some []) w) = (inr pl, w2) →
    out_file w2 = Some [] →
    (∀ row w', length row = length header →
       permute_row exclude (length header) pl.1.1 pl.1.2 row w' = (inr (f row), w')) →
    out_file (permute_columns_try int (table_env header rows) input output exclude w).2
      = Some (pl.2 :: (f <$> filter (λ r, length r = length header) rows)) →
    ∃ ds lg, permute_columns_try int e input output exclude w =
      (inl ex, World (out_file (permute_columns_try int (table_env header rows)
                                  input output exclude w).2) ds lg)) as Hgen.
  { intros [[indices X] header'] [o ds lg] f Hplan Ho Hf Hcomplete. simpl in *. subst o.
    rewrite Hcomplete.
    unfold permute_columns_try, open_input, open_output. rewrite Hin, Hout, Hrec.
    unfold bind at 1. unfold ret at 1. unfold bind at 1.
    unfold bind at 1. unfold next at 1. unfold ret at 1.
    unfold bind at 1. rewrite Hplan.
    erewrite bind_ok; [|unfold writerow; simpl; by rewrite Hw].
    unfold set_out_file. simpl. unfold bind at 1.
    rewrite for_each_record_app. unfold bind at 1.
    rewrite (column_loop e exclude (length header) indices X f rows
               [header'] ds lg Hw Hf).
    cbn [for_each_record]. unfold raise. by do 2 eexists. }
  assert (∃ ds lg, permute_columns_try int e input output exclude w =
      (inl ex, World (out_file (permute_columns_try int (table_env header rows)
                                  input output exclude w).2) ds lg)) as (ds & lg & Htry).
  { destruct (truthy_list exclude) eqn:Ht.
    - eapply (Hgen _ _ id).
      + by apply plan_header_excluding.
      + done.
      + intros row w' <-. by apply permute_row_excluding.
      + rewrite (permute_columns_try_excluding int _ _ _ _ _ _ _ Hq Ht). simpl.
        by rewrite list_fmap_id.
    - eapply (Hgen _ _ (λ r, pick r _)).
      + by apply plan_header_plain.
      + done.
      + intros row w' Hlen. apply permute_row_plain; [done..|]. apply shuffle_seq_bound.
      + by rewrite (permute_columns_try_plain int _ _ _ _ _ _ _ Hq Ht). }
  unfold permute_columns at 1 3. rewrite (try_caught _ _ _ _ _ Htry).
  unfold permute_columns. rewrite try_logging_out_file.
  unfold logging, add_log. simpl. by rewrite last_snoc.
Qed.

(** X7. The resolved PositionSet depends only on which tokens occur in
    the exclusion list, not on their order or on how often each occurs. *)
Theorem PositionSet_token_set (header tokens tokens' : list string) :
  tokens ≠ [] → (∀ col, col ∈ tokens ↔ col ∈ tokens') →
  PositionSet int header (Some tokens) = PositionSet int header (Some tokens').
Proof.
  intros Hne Hsame.
  assert (tokens' ≠ []) as Hne'.
  { destruct tokens as [|col ?]; [done|]. intros ->.
    by apply (not_elem_of_nil col), Hsame, list_elem_of_here. }
  rewrite !PositionSet_truthy by (by destruct tokens, tokens'). simpl.
  apply set_eq. intros p. rewrite !elem_of_resolved.
  by setoid_rewrite Hsame.
Qed.

(** X8. What [main] logs when validation fails. With an explicit encoding
    nothing is detected and only the validation error is logged. Without
    one, a detection that raises logs its error and then the fallback
    warning, a detection that answers nothing logs the fallback warning,
    and a detection that answers an encoding logs it; the validation error
    follows. The output file and the draws are untouched. *)
Theorem rejected_run_log e args w ex :
  probe_open e = Some ex →
  main int e args w =
    (inr 1,
     World (out_file w) (draws w)
       (log w
        ++ (if truthy_str (encoding args) then []
            else match chardet e with
                 | inl dex => [(ERROR, ErrorDetectingEncoding dex);
                               (WARNING, FailedToDetectEncoding)]
                 | inr enc =>
                     if truthy_str enc
                     then [(INFO, DetectedEncoding (default "" enc))]
                     else [(WARNING, FailedToDetectEncoding)]
                 end)
        ++ [(ERROR, match ex with
                    | FileNotFoundError => InputFileNotFound (input_file args)
                    | _ => ErrorOpeningInputFile ex
                    end)])).
Proof.
  intros Hp. unfold main, bind. destruct (truthy_str (encoding args)).
  - unfold ret at 1. rewrite validate_input_run, Hp. by destruct ex.
  - unfold detect_encoding, try_except, bind.
    destruct (chardet e) as [dex|enc]; simpl.
    + rewrite validate_input_run, Hp. unfold add_log. simpl.
      destruct ex; simpl; by rewrite <-!app_assoc.
    + destruct (truthy_str enc); simpl; rewrite validate_input_run, Hp;
        unfold add_log; simpl; destruct ex; simpl; by rewrite <-!app_assoc.
Qed.
End Failures.

(** ** The exclusion argument of the command line *)

Section parse_facts.
Implicit Types (s tok : string) (c : ascii).

Local Abbreviation chars := list_ascii_of_string.






Lemma lstrip_empty s : lstrip s = "" ↔ Forall (λ c, is_space c = true) (chars s).
Proof.
  induction s as [|d s IH]; simpl; [by split|].
  destruct (is_space d) eqn:Hd.
  - rewrite IH. split; [by constructor|by inversion 1].
  - split; [done|]. inversion 1; congruence.
Qed.










End parse_facts.

(** ** [main] on a run without failure *)

Section Main_run.
Variable int : string → option Z.
Implicit Types (e : env) (args : Args) (w : world) (header : list string)
  (rows : list (list string)).

(** X14. When validation passes and nothing fails afterwards, [main]
    returns exit status 0 and leaves in the output file exactly what the
    permutation function of the chosen mode writes: with [--permute_rows],
    the header followed by a permutation of all the rows, whatever
    [--exclude_columns] says; without it, what [permute_columns] writes
    for the tokens parsed from [--exclude_columns]. Detecting the encoding
    only adds to the log. *)
Theorem main_quiet_run e args w header rows :
  probe_open e = None → quiet e header rows →
  (main int e args w).1 = inr 0
  ∧ draws (main int e args w).2 =
      draws ((if permute_rows_flag args
              then permute_rows e (input_file args) (output_file args)
              else permute_columns int e (input_file args) (output_file args)
                     (parse_exclude_columns (exclude_columns args))) w).2
  ∧ out_file (main int e args w).2 =
      out_file ((if permute_rows_flag args
                 then permute_rows e (input_file args) (output_file args)
                 else permute_columns int e (input_file args) (output_file args)
                        (parse_exclude_columns (exclude_columns args))) w).2
  ∧ (permute_rows_flag args = true →
     ∃ rows', out_file (main int e args w).2 = Some (header :: rows') ∧ rows' ≡ₚ rows).
Proof.
  intros Hp Hq. destruct (main_validated int e args w Hp) as [pre ->].
  unfold bind. destruct (permute_rows_flag args).
  - unfold permute_rows.
    rewrite !(try_ok _ _ _ _ _ (permute_rows_try_quiet e _ _ header rows _ Hq)).
    simpl. split_and!; [done..|]. intros _. eexists. split; [done|apply shuffle_perm].
  - unfold permute_columns. split_and!; [| | |done].
    all: destruct (truthy_list (parse_exclude_columns (exclude_columns args))) eqn:Ht.
    all: first
      [ rewrite !(try_ok _ _ _ _ _
          (permute_columns_try_excluding int e _ _ _ header rows _ Hq Ht))
      | rewrite !(try_ok _ _ _ _ _
          (permute_columns_try_plain int e _ _ _ header rows _ Hq Ht)) ].
    all: done.
Qed.
End Main_run.

(** ** The further properties at concrete inputs *)

Lemma column_mode_records_are_permutations_witness :
  ∃ header' rows',
    out_file (permute_columns int_decimal (table_env demo_header demo_rows)
                "in.csv" "out.csv" (Some ["b"; "3"]) (fresh [1; 0])).2
      = Some (header' :: rows')
    ∧ header' ≡ₚ demo_header
    ∧ Forall2 (λ row row', row' ≡ₚ row)
        (filter (λ r, length r = length demo_header) demo_rows) rows'
    ∧ Forall (λ record, length record = length demo_header) (header' :: rows').
Proof.
  apply (column_mode_records_are_permutations int_decimal
           (table_env demo_header demo_rows)).
  repeat split; intros; reflexivity.
Defined.

Lemma nothing_to_shuffle_witness :
  out_file (permute_columns int_decimal (table_env demo_header demo_rows)
              "in.csv" "out.csv" (Some ["a"; "b"; "3"]) (fresh [1; 0])).2
    = Some (demo_header :: filter (λ r, length r = length demo_header) demo_rows)
  ∧ draws (permute_columns int_decimal (table_env demo_header demo_rows)
             "in.csv" "out.csv" (Some ["a"; "b"; "3"]) (fresh [1; 0])).2
    = draws (fresh [1; 0]).
Proof.
  apply (nothing_to_shuffle int_decimal (table_env demo_header demo_rows)).
  - repeat split; intros; reflexivity.
  - vm_compute. lia.
Defined.

Lemma unresolved_tokens_same_header_witness :
  ∃ header' plan,
    out_file (permute_columns int_decimal (table_env demo_header demo_rows)
                "in.csv" "out.csv" (Some ["zzz"; "99"]) (fresh [1; 0; 0])).2
      = Some (header' :: filter (λ r, length r = length demo_header) demo_rows)
    ∧ out_file (permute_columns int_decimal (table_env demo_header demo_rows)
                  "in.csv" "out.csv" None (fresh [1; 0; 0])).2
      = Some (header' :: ((λ r, pick r plan)
                            <$> filter (λ r, length r = length demo_header) demo_rows))
    ∧ header' = pick demo_header plan
    ∧ plan = (shuffle (seq 0 (length demo_header)) (draws (fresh [1; 0; 0]))).1.
Proof.
  apply (unresolved_tokens_same_header int_decimal (table_env demo_header demo_rows)).
  - repeat split; intros; reflexivity.
  - reflexivity.
  - vm_compute. reflexivity.
Defined.

Lemma failed_open_keeps_output_witness :
  let e := unwritable_env demo_header demo_rows in
  let w := World (Some [["old"]]) [1; 0] [] in
  permute_columns int_decimal e "in.csv" "out.csv" (Some ["b"]) w
    = (inr tt, add_log (ERROR, ErrorPermutingColumns (OtherError "Permission denied")) w)
  ∧ permute_rows e "in.csv" "out.csv" w
    = (inr tt, add_log (ERROR, ErrorPermutingRows (OtherError "Permission denied")) w).
Proof.
  apply (failed_open_keeps_output int_decimal (unwritable_env demo_header demo_rows)).
  right. split; reflexivity.
Defined.

Lemma mid_file_read_fault_witness :
  let e := torn_env demo_header demo_rows in
  let ex := OtherError "invalid continuation byte" in
  let w := fresh [1; 0] in
  permute_rows e "in.csv" "out.csv" w
    = (inr tt, World (Some [demo_header]) (draws w) (log w ++ [(ERROR, ErrorPermutingRows ex)]))
  ∧ out_file (permute_columns int_decimal e "in.csv" "out.csv" None w).2
    = out_file (permute_columns int_decimal (table_env demo_header demo_rows)
                  "in.csv" "out.csv" None w).2
  ∧ last (log (permute_columns int_decimal e "in.csv" "out.csv" None w).2)
    = Some (ERROR, ErrorPermutingColumns ex).
Proof.
  apply (mid_file_read_fault int_decimal (torn_env demo_header demo_rows)
           "in.csv" "out.csv" None (fresh [1; 0]) demo_header demo_rows
           (OtherError "invalid continuation byte") []);
    intros; reflexivity.
Defined.

Lemma PositionSet_token_set_witness :
  PositionSet int_decimal demo_header (Some ["b"; "3"])
  = PositionSet int_decimal demo_header (Some ["3"; "b"; "3"]).
Proof.
  apply (PositionSet_token_set int_decimal demo_header ["b"; "3"] ["3"; "b"; "3"]).
  - discriminate.
  - intros col. rewrite !elem_of_cons. tauto.
Defined.

Lemma rejected_run_log_witness :
  main int_decimal missing_env (column_args "b,3") (fresh [])
  = (inr 1,
     World None []
       ([] ++ [(ERROR, ErrorDetectingEncoding FileNotFoundError);
               (WARNING, FailedToDetectEncoding)]
           ++ [(ERROR, InputFileNotFound "in.csv")])).
Proof.
  apply (rejected_run_log int_decimal missing_env (column_args "b,3") (fresh [])
           FileNotFoundError).
  reflexivity.
Defined.


Lemma plain_run_shares_mapping_witness :
  ∃ plan header' rows',
    out_file (permute_columns int_decimal (table_env demo_header demo_rows)
                "in.csv" "out.csv" None (fresh [3; 1])).2 = Some (header' :: rows')
    ∧ plan ≡ₚ seq 0 (length demo_header)
    ∧ items demo_header plan = Some header'
    ∧ Forall2 (λ row row', items row plan = Some row')
        (filter (λ r, length r = length demo_header) demo_rows) rows'.
Proof.
  apply (plain_run_shares_mapping int_decimal (table_env demo_header demo_rows)).
  - repeat split; intros; reflexivity.
  - reflexivity.
Defined.



Lemma main_quiet_run_witness :
  let e := table_env demo_header demo_rows in
  let w := fresh [1; 0] in
  (main int_decimal e row_args w).1 = inr 0
  ∧ draws (main int_decimal e row_args w).2
    = draws (permute_rows e "in.csv" "out.csv" w).2
  ∧ out_file (main int_decimal e row_args w).2
    = out_file (permute_rows e "in.csv" "out.csv" w).2
  ∧ (true = true →
     ∃ rows', out_file (main int_decimal e row_args w).2 = Some (demo_header :: rows')
              ∧ rows' ≡ₚ demo_rows).
Proof.
  apply (main_quiet_run int_decimal (table_env demo_header demo_rows) row_args
           (fresh [1; 0]) demo_header demo_rows).
  - reflexivity.
  - repeat split; intros; reflexivity.
Defined.
